(** * obsidian-restic-backup: the backup orchestration core of [main.js]

    A shallow embedding of the plugin's [resticBackup], [parseResticSummary],
    [detectRestic] and [getShellEnv], with the parts of the JavaScript
    runtime they rely on ([String.prototype.trim], [String.prototype.split],
    [JSON.parse], property access, [execFile] promises). *)

From Stdlib Require Import String Ascii NArith ZArith List Bool Lia.
From stdpp Require Import base option list gmap.

Local Open Scope N_scope.

(** ** JavaScript strings

    A JavaScript string is a finite sequence of 16-bit code units. *)

Module JsString.

Definition jsstring : Type := list N.

(** The code units of an ASCII literal. *)
Definition str (s : string) : jsstring :=
  List.map N_of_ascii (list_ascii_of_string s).

(** ECMAScript [WhiteSpace] and [LineTerminator] code points, the set
    removed by [String.prototype.trim]. *)
Definition is_js_space (c : N) : bool :=
  (9 <=? c) && (c <=? 13)
  || (c =? 32) || (c =? 160) || (c =? 5760)
  || (8192 <=? c) && (c <=? 8202)
  || (c =? 8232) || (c =? 8233) || (c =? 8239) || (c =? 8287)
  || (c =? 12288) || (c =? 65279).

Fixpoint trimStart (s : jsstring) : jsstring :=
  match s with
  | c :: r => if is_js_space c then trimStart r else s
  | [] => []
  end.

Definition trimEnd (s : jsstring) : jsstring :=
  rev (trimStart (rev s)).

(** [s.trim()] *)
Definition trim (s : jsstring) : jsstring := trimEnd (trimStart s).

(** [s.split(sep)] for a separator of one code unit.  The result always
    has at least one element, also for the empty string. *)
Fixpoint split (sep : N) (s : jsstring) : list jsstring :=
  match s with
  | [] => [[]]
  | c :: r =>
      if c =? sep then [] :: split sep r
      else match split sep r with
           | piece :: pieces => (c :: piece) :: pieces
           | [] => [[c]]
           end
  end.

(** [s.split(sep, limit)]: the array of all pieces, truncated to its
    first [limit] elements. *)
Definition split_limit (sep : N) (limit : nat) (s : jsstring) : list jsstring :=
  firstn limit (split sep s).

(** The same for a text written with ['] where it has a double quote,
    as the JSON samples below are. *)
Definition text (s : string) : jsstring :=
  List.map (fun c => if c =? 39 then 34 else c) (str s).

Definition eqb (a b : jsstring) : bool := bool_decide (a = b).

End JsString.
Import JsString.

Definition LF : N := 10.
Definition COMMA : N := 44.
Definition EQUALS : N := 61.

(** ** Errors and completions

    The program throws plain [Error] objects distinguished by their message;
    [JSON.parse] throws a [SyntaxError], a property access on [null] a
    [TypeError], and a rejected [execFile] promise carries the child
    process error. *)

Inductive js_error : Type :=
| Error (message : jsstring)
| SyntaxError
| TypeError
| ChildProcessError (exit_code : option N) (stderr : jsstring).

(** The outcome of evaluating a piece of synchronous code. *)
Inductive completion (A : Type) : Type :=
| Normal (a : A)
| Abrupt (e : js_error).
Arguments Normal {A} a.
Arguments Abrupt {A} e.

#[global] Instance completion_ret : MRet completion := fun A a => Normal a.

#[global] Instance completion_bind : MBind completion := fun A B f c =>
  match c with
  | Normal a => f a
  | Abrupt e => Abrupt e
  end.

(** ** JSON values and [JSON.parse] *)

Module Json.

(** A number keeps the exact decimal its literal denotes,
    [mantissa * 10 ^ exponent]; the rounding to a double that JavaScript
    applies is not modelled.  An object lists its own properties in
    creation order, one entry per key. *)
#[warnings="-register-all"]
Inductive json : Type :=
| JNull
| JBool (b : bool)
| JNumber (mantissa exponent : Z)
| JString (s : jsstring)
| JArray (elements : list json)
| JObject (members : list (jsstring * json)).

(** Own-property lookup. *)
Fixpoint obj_get (o : list (jsstring * json)) (k : jsstring) : option json :=
  match o with
  | [] => None
  | (k', v) :: r => if eqb k' k then Some v else obj_get r k
  end.

(** Defining a data property: a repeated key keeps its place and takes
    the new value. *)
Fixpoint obj_set (o : list (jsstring * json)) (k : jsstring) (v : json)
  : list (jsstring * json) :=
  match o with
  | [] => [(k, v)]
  | (k', v') :: r => if eqb k' k then (k, v) :: r else (k', v') :: obj_set r k v
  end.

(** Result of a sub-parser: the value and the unread input, a syntax
    error, or recursion budget exhausted. *)
Inductive pres (A : Type) : Type :=
| POk (a : A) (rest : jsstring)
| PErr
| PFuel.
Arguments POk {A} a rest.
Arguments PErr {A}.
Arguments PFuel {A}.

(** JSON insignificant whitespace: tab, line feed, carriage return, space. *)
Definition is_json_ws (c : N) : bool :=
  (c =? 9) || (c =? 10) || (c =? 13) || (c =? 32).

Fixpoint skip_ws (s : jsstring) : jsstring :=
  match s with
  | c :: r => if is_json_ws c then skip_ws r else s
  | [] => []
  end.

Definition is_digit (c : N) : bool := (48 <=? c) && (c <=? 57).

Definition hex_val (c : N) : option N :=
  if is_digit c then Some (c - 48)
  else if (97 <=? c) && (c <=? 102) then Some (c - 87)
  else if (65 <=? c) && (c <=? 70) then Some (c - 55)
  else None.

Definition hex4 (a b c d : N) : option N :=
  match hex_val a, hex_val b, hex_val c, hex_val d with
  | Some a, Some b, Some c, Some d => Some (((a * 16 + b) * 16 + c) * 16 + d)
  | _, _, _, _ => None
  end.

Definition push_char (c : N) (p : pres jsstring) : pres jsstring :=
  match p with
  | POk s rest => POk (c :: s) rest
  | PErr => PErr
  | PFuel => PFuel
  end.

(** The characters of a string literal after its opening quote. *)
Fixpoint parse_chars (s : jsstring) : pres jsstring :=
  match s with
  | [] => PErr
  | c :: r =>
      if c =? 34 then POk [] r
      else if c =? 92 then
        match r with
        | [] => PErr
        | e :: r1 =>
            if e =? 34 then push_char 34 (parse_chars r1)
            else if e =? 92 then push_char 92 (parse_chars r1)
            else if e =? 47 then push_char 47 (parse_chars r1)
            else if e =? 98 then push_char 8 (parse_chars r1)
            else if e =? 102 then push_char 12 (parse_chars r1)
            else if e =? 110 then push_char 10 (parse_chars r1)
            else if e =? 114 then push_char 13 (parse_chars r1)
            else if e =? 116 then push_char 9 (parse_chars r1)
            else if e =? 117 then
              match r1 with
              | h1 :: h2 :: h3 :: h4 :: r2 =>
                  match hex4 h1 h2 h3 h4 with
                  | Some u => push_char u (parse_chars r2)
                  | None => PErr
                  end
              | _ => PErr
              end
            else PErr
        end
      else if c <? 32 then PErr
      else push_char c (parse_chars r)
  end.

(** A run of decimal digits: the accumulated value, how many digits
    were read, and the unread input. *)
Fixpoint read_digits (s : jsstring) (acc : Z) (count : nat)
  : Z * nat * jsstring :=
  match s with
  | c :: r =>
      if is_digit c then read_digits r (acc * 10 + Z.of_N (c - 48))%Z (S count)
      else (acc, count, s)
  | [] => (acc, count, [])
  end.

(** The integer part: a single [0], or a non-zero digit and more digits. *)
Definition parse_int (s : jsstring) : pres Z :=
  match s with
  | c :: r =>
      if c =? 48 then POk 0%Z r
      else if is_digit c then
        let '(v, _, rest) := read_digits s 0%Z O in POk v rest
      else PErr
  | [] => PErr
  end.

(** The optional fraction, folded into the mantissa. *)
Definition parse_frac (m : Z) (s : jsstring) : pres (Z * Z) :=
  match s with
  | c :: r =>
      if c =? 46 then
        match read_digits r m O with
        | (_, O, _) => PErr
        | (m', n, rest) => POk (m', (- Z.of_nat n)%Z) rest
        end
      else POk (m, 0%Z) s
  | [] => POk (m, 0%Z) []
  end.

(** The optional exponent. *)
Definition parse_exp (s : jsstring) : pres Z :=
  match s with
  | c :: r =>
      if (c =? 101) || (c =? 69) then
        let '(neg, r1) :=
          match r with
          | g :: r' =>
              if g =? 45 then (true, r')
              else if g =? 43 then (false, r')
              else (false, r)
          | [] => (false, r)
          end in
        match read_digits r1 0%Z O with
        | (_, O, _) => PErr
        | (e, _, rest) => POk (if neg then (- e)%Z else e) rest
        end
      else POk 0%Z s
  | [] => POk 0%Z []
  end.

Definition parse_number (s : jsstring) : pres json :=
  let '(neg, s1) :=
    match s with
    | c :: r => if c =? 45 then (true, r) else (false, s)
    | [] => (false, s)
    end in
  match parse_int s1 with
  | POk i s2 =>
      match parse_frac i s2 with
      | POk (m, fe) s3 =>
          match parse_exp s3 with
          | POk e s4 => POk (JNumber (if neg then (- m)%Z else m) (fe + e)%Z) s4
          | _ => PErr
          end
      | _ => PErr
      end
  | _ => PErr
  end.

(** [strip_prefix p s] is the input after the literal [p], if [s]
    starts with it. *)
Fixpoint strip_prefix (p s : jsstring) : option jsstring :=
  match p, s with
  | [], _ => Some s
  | a :: p', b :: s' => if a =? b then strip_prefix p' s' else None
  | _ :: _, [] => None
  end.

Definition parse_literal (word : string) (v : json) (s : jsstring) : pres json :=
  match strip_prefix (str word) s with
  | Some rest => POk v rest
  | None => PErr
  end.

Fixpoint parse_value (fuel : nat) (s : jsstring) : pres json :=
  match fuel with
  | O => PFuel
  | S fuel =>
      match skip_ws s with
      | [] => PErr
      | c :: r =>
          if c =? 123 then
            match skip_ws r with
            | c1 :: r1 =>
                if c1 =? 125 then POk (JObject []) r1
                else parse_members fuel (c1 :: r1) []
            | [] => PErr
            end
          else if c =? 91 then
            match skip_ws r with
            | c1 :: r1 =>
                if c1 =? 93 then POk (JArray []) r1
                else parse_elements fuel (c1 :: r1) []
            | [] => PErr
            end
          else if c =? 34 then
            match parse_chars r with
            | POk str rest => POk (JString str) rest
            | _ => PErr
            end
          else if c =? 110 then parse_literal "null" JNull (c :: r)
          else if c =? 116 then parse_literal "true" (JBool true) (c :: r)
          else if c =? 102 then parse_literal "false" (JBool false) (c :: r)
          else parse_number (c :: r)
      end
  end

(** The elements of an array after [[]: [acc] holds those read so far. *)
with parse_elements (fuel : nat) (s : jsstring) (acc : list json)
  : pres json :=
  match fuel with
  | O => PFuel
  | S fuel =>
      match parse_value fuel s with
      | POk v rest =>
          match skip_ws rest with
          | c :: r =>
              if c =? 44 then parse_elements fuel r (acc ++ [v])
              else if c =? 93 then POk (JArray (acc ++ [v])) r
              else PErr
          | [] => PErr
          end
      | PErr => PErr
      | PFuel => PFuel
      end
  end

(** The members of an object after [{]. *)
with parse_members (fuel : nat) (s : jsstring) (acc : list (jsstring * json))
  : pres json :=
  match fuel with
  | O => PFuel
  | S fuel =>
      match skip_ws s with
      | c :: r =>
          if c =? 34 then
            match parse_chars r with
            | POk key rest =>
                match skip_ws rest with
                | c1 :: r1 =>
                    if c1 =? 58 then
                      match parse_value fuel r1 with
                      | POk v rest1 =>
                          match skip_ws rest1 with
                          | c2 :: r2 =>
                              if c2 =? 44 then parse_members fuel r2 (obj_set acc key v)
                              else if c2 =? 125 then POk (JObject (obj_set acc key v)) r2
                              else PErr
                          | [] => PErr
                          end
                      | PErr => PErr
                      | PFuel => PFuel
                      end
                    else PErr
                | [] => PErr
                end
            | _ => PErr
            end
          else PErr
      | [] => PErr
      end
  end.

(** [JSON.parse(text)]: one value between optional whitespace, or a
    [SyntaxError].  The budget [2 * length text + 1] is never exhausted
    (see [parse_value_fuel]). *)
Definition JSON_parse (text : jsstring) : completion json :=
  match parse_value (2 * length text + 1) text with
  | POk v rest =>
      match skip_ws rest with
      | [] => Normal v
      | _ :: _ => Abrupt SyntaxError
      end
  | _ => Abrupt SyntaxError
  end.

End Json.
Import Json.

(** ** The summary parser

    <<
    function parseResticSummary(stdout) {
      const lines = stdout.trim().split("\n");
      for (const line of lines) {
        try {
          const msg = JSON.parse(line);
          if (msg.message_type === "summary") { return msg; }
        } catch { continue; }
      }
      throw new Error("No summary found in restic output");
    }
    >> *)

Module Summary.

(** [msg.message_type] on a value produced by [JSON.parse]: reading a
    property of [null] throws; an object answers with its own property
    ([None] is [undefined]); numbers, strings, booleans and arrays have
    no property of that name. *)
Definition get_message_type (msg : json) : completion (option json) :=
  match msg with
  | JNull => Abrupt TypeError
  | JObject members => Normal (obj_get members (str "message_type"))
  | _ => Normal None
  end.

(** [v === s] for a string [s]. *)
Definition strict_equals_string (v : option json) (s : jsstring) : bool :=
  match v with
  | Some (JString t) => eqb t s
  | _ => false
  end.

(** The body of the [try] block: [Some msg] when it reaches [return msg],
    [None] when it falls through to the next line. *)
Definition try_line (line : jsstring) : completion (option json) :=
  msg ← JSON_parse line;
  mt ← get_message_type msg;
  if strict_equals_string mt (str "summary") then mret (Some msg) else mret None.

Definition no_summary : js_error :=
  Error (str "No summary found in restic output").

(** The [for] loop with its [catch { continue }]. *)
Fixpoint scan (lines : list jsstring) : completion json :=
  match lines with
  | [] => Abrupt no_summary
  | line :: rest =>
      match try_line line with
      | Normal (Some msg) => Normal msg
      | Normal None => scan rest
      | Abrupt _ => scan rest
      end
  end.

(** [stdout.trim().split("\n")] *)
Definition lines_of (stdout : jsstring) : list jsstring :=
  split LF (trim stdout).

Definition parseResticSummary (stdout : jsstring) : completion json :=
  scan (lines_of stdout).

(** A line parses as a summary record [v]: it is well-formed JSON for an
    object whose [message_type] is the string ["summary"]. *)
Definition parses_as_summary (line : jsstring) (v : json) : Prop :=
  JSON_parse line = Normal v
  ∧ ∃ members, v = JObject members
      ∧ obj_get members (str "message_type") = Some (JString (str "summary")).

(** A line the scan skips. *)
Definition not_summary (line : jsstring) : Prop :=
  ∀ v, ¬ parses_as_summary line v.

(** The same as a test to run on a given line. *)
Definition skipped (line : jsstring) : bool :=
  match try_line line with
  | Normal (Some _) => false
  | _ => true
  end.

End Summary.
Import Summary.

(** ** Child processes

    [execFile] is the promisified [child_process.execFile]: the promise
    resolves with the captured output when the child exits with status 0
    and rejects otherwise (also when the child cannot be started).  An
    [async] function is a tree whose nodes are its [await execFile(...)]
    points; what follows the [await] is the node's continuation. *)

Module Process.

(** A value stored in an environment object. *)
Inductive envval : Type :=
| Undefined
| Str (s : jsstring).

#[global] Instance envval_eq_dec : EqDecision envval.
Proof. solve_decision. Defined.

Abbreviation jsenv := (gmap jsstring envval).

Record exec_call : Type := ExecCall {
  file : jsstring;
  args : list jsstring;
  env : jsenv
}.

Inductive exec_outcome : Type :=
| Resolved (stdout stderr : jsstring)
| Rejected (e : js_error).

Inductive proc (A : Type) : Type :=
| Ret (a : A)
| Throw (e : js_error)
| Await (call : exec_call) (k : exec_outcome → proc A).
Arguments Ret {A} a.
Arguments Throw {A} e.
Arguments Await {A} call k.

#[global] Instance proc_ret : MRet proc := fun A a => Ret a.

#[global] Instance proc_bind : MBind proc := fun A B f =>
  fix go (p : proc A) : proc B :=
    match p with
    | Ret a => f a
    | Throw e => Throw e
    | Await call k => Await call (fun o => go (k o))
    end.

(** [try { body } catch (error) { handler }] *)
Fixpoint try_catch {A} (body : proc A) (handler : js_error → proc A) : proc A :=
  match body with
  | Ret a => Ret a
  | Throw e => handler e
  | Await call k => Await call (fun o => try_catch (k o) handler)
  end.

(** [const { stdout } = await execFile(file, args, { env })] *)
Definition execFile (file : jsstring) (args : list jsstring) (env : jsenv)
  : proc jsstring :=
  Await (ExecCall file args env)
    (fun o => match o with
              | Resolved stdout _ => Ret stdout
              | Rejected e => Throw e
              end).

(** Synchronous code inside an [async] function. *)
Definition lift {A} (c : completion A) : proc A :=
  match c with
  | Normal a => Ret a
  | Abrupt e => Throw e
  end.

(** Running an [async] function to completion against an operating
    system [os] that decides how each child ends: the completion and the
    calls to [execFile] made, in order. *)
Fixpoint run {A} (os : exec_call → exec_outcome) (p : proc A)
  : completion A * list exec_call :=
  match p with
  | Ret a => (Normal a, [])
  | Throw e => (Abrupt e, [])
  | Await call k =>
      let '(c, calls) := run os (k (os call)) in (c, call :: calls)
  end.

End Process.
Import Process.

(** ** The login-shell environment

    <<
    async function getShellEnv() {
      const shell = process.env.SHELL;
      assert(shell, "SHELL environment variable is set");
      const { stdout } = await execFile(shell, ["-l", "-c", "env"], { env: process.env });
      const env = {};
      for (const line of stdout.split("\n")) {
        const [key, value] = line.split("=", 2);
        if (key) env[key] = value;
      }
      return env;
    }
    >> *)

Module ShellEnv.

(** [assert(value, message)] on a value read from [process.env]:
    [undefined] and the empty string are falsy. *)
Definition assert (value : option envval) (message : jsstring) : proc jsstring :=
  match value with
  | Some (Str (c :: s)) => Ret (c :: s)
  | _ => Throw (Error message)
  end.

(** [env[key] = value] on an object literal: the key [__proto__] reaches
    the prototype setter, which ignores a string or [undefined] and
    creates no property. *)
Definition obj_assign (env : jsenv) (key : jsstring) (value : envval) : jsenv :=
  if eqb key (str "__proto__") then env else <[key := value]> env.

(** One turn of the loop.  [const [key, value] = pieces] reads the first
    two elements of the array; a missing second element is [undefined]. *)
Definition record_line (env : jsenv) (line : jsstring) : jsenv :=
  match split_limit EQUALS 2 line with
  | [] => env
  | key :: rest =>
      let value := match rest with
                   | v :: _ => Str v
                   | [] => Undefined
                   end in
      match key with
      | [] => env
      | _ :: _ => obj_assign env key value
      end
  end.

Definition parse_env (stdout : jsstring) : jsenv :=
  fold_left record_line (split LF stdout) ∅.

Definition getShellEnv (process_env : jsenv) : proc jsenv :=
  shell ← assert (process_env !! str "SHELL") (str "SHELL environment variable is set");
  stdout ← execFile shell [str "-l"; str "-c"; str "env"] process_env;
  mret (parse_env stdout).

End ShellEnv.
Import ShellEnv.

(** ** Locating the restic binary

    <<
    async function detectRestic() {
      const env = await getShellEnv();
      try {
        const { stdout } = await execFile("which", ["restic"], { env });
        const result = stdout.trim();
        return result === "" ? null : result;
      } catch (error) {
        console.error(error);
        return null;
      }
    }
    >> *)

Definition which_restic (env : jsenv) : exec_call :=
  ExecCall (str "which") [str "restic"] env.

(** [None] is [null]. *)
Definition detectRestic (process_env : jsenv) : proc (option jsstring) :=
  env ← getShellEnv process_env;
  try_catch
    (stdout ← execFile (str "which") [str "restic"] env;
     let result := trim stdout in
     mret (match result with
           | [] => None
           | _ :: _ => Some result
           end))
    (fun error => mret None).

(** ** The backup run

    <<
    async resticBackup() {
      if (!this.settings.resticRepository) {
        throw new Error("Restic repository not configured");
      }
      const env = { ...process.env, RESTIC_REPOSITORY: this.settings.resticRepository };
      if (this.settings.resticPasswordFile !== "") {
        env["RESTIC_PASSWORD_FILE"] = this.settings.resticPasswordFile;
      }
      if (this.settings.resticPasswordCommand !== "") {
        env["RESTIC_PASSWORD_COMMAND"] = this.settings.resticPasswordCommand;
      }
      const args = ["backup", adapter.getBasePath(), "--json", "--skip-if-unchanged"];
      if (this.settings.resticTags !== "") {
        const tags = this.settings.resticTags.split(",").map((t) => t.trim());
        if (tags.length > 0) {
          for (const tag of tags) { args.push("--tag", tag); }
        }
      }
      const { stdout } = await execFile(this.settings.resticBinPath, args, { env });
      return parseResticSummary(stdout);
    }
    >> *)

Module Backup.

Record settings : Type := Settings {
  enabled : bool;
  resticBinPath : jsstring;
  resticRepository : jsstring;
  resticPasswordFile : jsstring;
  resticPasswordCommand : jsstring;
  resticTags : jsstring;
  backupInterval : N
}.

Definition DEFAULT_SETTINGS : settings :=
  Settings false [] [] [] [] [] (60 * 60).

Definition RESTIC_REPOSITORY : jsstring := str "RESTIC_REPOSITORY".
Definition RESTIC_PASSWORD_FILE : jsstring := str "RESTIC_PASSWORD_FILE".
Definition RESTIC_PASSWORD_COMMAND : jsstring := str "RESTIC_PASSWORD_COMMAND".

Definition not_configured : js_error :=
  Error (str "Restic repository not configured").

(** The object [env] when [execFile] is reached. *)
Definition resticBackup_env (process_env : jsenv) (s : settings) : jsenv :=
  let env := <[RESTIC_REPOSITORY := Str (resticRepository s)]> process_env in
  let env := if eqb (resticPasswordFile s) [] then env
             else <[RESTIC_PASSWORD_FILE := Str (resticPasswordFile s)]> env in
  let env := if eqb (resticPasswordCommand s) [] then env
             else <[RESTIC_PASSWORD_COMMAND := Str (resticPasswordCommand s)]> env in
  env.

(** [for (const tag of tags) args.push("--tag", tag)] *)
Definition push_tags (args tags : list jsstring) : list jsstring :=
  fold_left (fun args tag => args ++ [str "--tag"; tag]) tags args.

(** The array [args] when [execFile] is reached; [basePath] is the
    vault directory reported by the host's file-system adapter. *)
Definition resticBackup_args (basePath : jsstring) (s : settings) : list jsstring :=
  let args := [str "backup"; basePath; str "--json"; str "--skip-if-unchanged"] in
  if eqb (resticTags s) [] then args
  else
    let tags := List.map trim (split COMMA (resticTags s)) in
    if (0 <? length tags)%nat then push_tags args tags else args.

Definition resticBackup (process_env : jsenv) (basePath : jsstring) (s : settings)
  : proc json :=
  match resticRepository s with
  | [] => Throw not_configured
  | _ :: _ =>
      stdout ← execFile (resticBinPath s) (resticBackup_args basePath s)
                        (resticBackup_env process_env s);
      lift (parseResticSummary stdout)
  end.

End Backup.
Import Backup.

(** ** Overlapping runs

    The event loop interleaves [async] calls at their [await]s.  A call to
    [resticBackup] runs up to its [await execFile(...)].  There [execFile]
    either starts a child, and the call is suspended until that child
    exits, or throws on the spot, before any child exists, as it does for
    an empty file name; the call then goes on at once with that error. *)

Module Runtime.

Record suspended : Type := Suspended {
  pid : nat;
  call : exec_call;
  resume : exec_outcome → proc json
}.

Record state : Type := State {
  in_flight : list suspended;
  next_pid : nat;
  settled : list (completion json)
}.

Definition initial : state := State [] 0 [].

Inductive event : Type :=
| Trigger
| ChildExit (p : nat) (o : exec_outcome).

Definition take (p : nat) (runs : list suspended)
  : option (suspended * list suspended) :=
  match List.find (fun r => Nat.eqb (pid r) p) runs with
  | Some r => Some (r, List.filter (fun r => negb (Nat.eqb (pid r) p)) runs)
  | None => None
  end.

Section Plugin.
(** What [execFile] does with a call on the spot: [None] when it starts a
    child, [Some e] when it throws [e] and starts none. *)
Variable launch : exec_call → option js_error.
Variable process_env : jsenv.
Variable basePath : jsstring.
Variable s : settings.

(** Drive a call until it settles or suspends on a child. *)
Fixpoint advance (st : state) (p : proc json) : state :=
  match p with
  | Ret v => State (in_flight st) (next_pid st) (settled st ++ [Normal v])
  | Throw e => State (in_flight st) (next_pid st) (settled st ++ [Abrupt e])
  | Await c k =>
      match launch c with
      | None =>
          State (in_flight st ++ [Suspended (next_pid st) c k]) (S (next_pid st))
                (settled st)
      | Some e => advance st (k (Rejected e))
      end
  end.

Definition step (st : state) (ev : event) : state :=
  match ev with
  | Trigger => advance st (resticBackup process_env basePath s)
  | ChildExit p o =>
      match take p (in_flight st) with
      | Some (r, others) =>
          advance (State others (next_pid st) (settled st)) (resume r o)
      | None => st
      end
  end.

Definition steps (evs : list event) (st : state) : state :=
  fold_left step evs st.

(** The single-flight property of the specification. *)
Definition single_flight : Prop :=
  ∀ evs, (length (in_flight (steps evs initial)) ≤ 1)%nat.

End Plugin.

End Runtime.
Import Runtime.

(** ** Sample data *)

Definition sample_settings : settings :=
  Settings true (str "/opt/homebrew/bin/restic") (str "/tmp/restic-repo")
           [] [] (str "  a, b ,,c ") 3600.

Definition unconfigured_settings : settings :=
  Settings true (str "/opt/homebrew/bin/restic") []
           (str "/path/to/password-file") [] (str "obsidian,notes") 3600.

Definition both_passwords_settings : settings :=
  Settings true (str "/opt/homebrew/bin/restic") (str "/tmp/restic-repo")
           (str "/path/to/password-file") (str "pass show restic") [] 3600.

(** Settings with a repository and the default, empty, binary path. *)
Definition settings_without_binary : settings :=
  Settings true [] (str "/tmp/restic-repo") [] [] [] 3600.

(** An [execFile] that refuses an empty file name on the spot and starts
    a child for every other call. *)
Definition launch_unless_empty (c : exec_call) : option js_error :=
  match file c with
  | [] => Some TypeError
  | _ :: _ => None
  end.

Definition sample_env : jsenv :=
  <[str "SHELL" := Str (str "/bin/zsh")]>
    (<[str "RESTIC_PASSWORD_FILE" := Str (str "/ambient")]> ∅).

(** The sample output of the specification: noise, a status event, the
    summary, noise. *)
Definition sample_output : jsstring :=
  str "noise" ++ [LF]
  ++ text "{'message_type':'status'}" ++ [LF]
  ++ text "{'message_type':'summary','files_new':3,'files_changed':1,'total_files_processed':10,'total_duration':1.25,'snapshot_id':'abc123'}" ++ [LF]
  ++ str "trailing".

Definition sample_summary : json :=
  JObject [ (str "message_type", JString (str "summary"));
            (str "files_new", JNumber 3 0);
            (str "files_changed", JNumber 1 0);
            (str "total_files_processed", JNumber 10 0);
            (str "total_duration", JNumber 125 (-2));
            (str "snapshot_id", JString (str "abc123")) ].

(** Output without any summary event. *)
Definition noise_output : jsstring :=
  str "noise" ++ [LF]
  ++ text "{'message_type':'status','percent_done':1}" ++ [LF]
  ++ str "null" ++ [LF]
  ++ text "{'message_type':".

(** Two summary events with noise around them. *)
Definition two_summaries_output : jsstring :=
  text "{'message_type':'status'}" ++ [LF]
  ++ text "{'message_type':'summary','snapshot_id':'first'}" ++ [LF]
  ++ str "garbage" ++ [LF]
  ++ text "{'message_type':'summary','snapshot_id':'second'}" ++ [LF].

(** A summary event behind a form feed, which [trim] removes and JSON
    does not allow. *)
Definition form_feed_output : jsstring :=
  [12] ++ text "{'message_type':'summary'}".

(** The same with a second summary event on the next line. *)
Definition form_feed_two_summaries : jsstring :=
  [12] ++ text "{'message_type':'summary','snapshot_id':'first'}" ++ [LF]
  ++ text "{'message_type':'summary','snapshot_id':'second'}".

(** A summary event with none of the documented fields and one extra. *)
Definition bare_summary_output : jsstring :=
  text "{'message_type':'summary','extra':[true,null]}".

(** An operating system where the login shell prints two variables and
    [which] finds nothing. *)
Definition os_without_restic (c : exec_call) : exec_outcome :=
  if eqb (file c) (str "which") then Rejected (ChildProcessError (Some 1) [])
  else Resolved (str "PATH=/usr/bin" ++ [LF] ++ str "HOME=/Users/me" ++ [LF]) [].

(** An operating system where the login shell prints a value with an
    ['='] in it and a line without one. *)
Definition os_shell_prints (c : exec_call) : exec_outcome :=
  Resolved (str "A=b=c" ++ [LF] ++ str "FOO" ++ [LF]) [].

(** An operating system where the login shell itself exits with status 1. *)
Definition os_shell_fails (c : exec_call) : exec_outcome :=
  Rejected (ChildProcessError (Some 1) (str "zsh: permission denied")).

(** ** Settings objects

    <<
    const LOCAL_SETTINGS = Object.freeze([
      "enabled", "resticBinPath", "resticRepository",
      "resticPasswordFile", "resticPasswordCommand",
    ]);

    async saveSettings() {
      const localSettings = {};
      const dataSettings = {};
      for (const [key, value] of Object.entries(this.settings)) {
        if (LOCAL_SETTINGS.includes(key)) { localSettings[key] = value; }
        else { dataSettings[key] = value; }
      }
      window.localStorage.setItem(`${this.manifest.id}:settings`, JSON.stringify(localSettings));
      await this.saveData(dataSettings);
    }
    >> *)

Module Plugin.

(** The own properties of a settings object, by name.  The values are
    those JSON carries. *)
Abbreviation object := (gmap jsstring json).

Definition PROTO : jsstring := str "__proto__".

(** [target[key] = value] on a plain object: the name [__proto__] goes to
    the prototype setter and leaves the own properties alone. *)
Definition set_own {V} (target : gmap jsstring V) (key : jsstring) (value : V)
  : gmap jsstring V :=
  if eqb key PROTO then target else <[key := value]> target.

Definition LOCAL_SETTINGS : list jsstring :=
  [str "enabled"; str "resticBinPath"; str "resticRepository";
   str "resticPasswordFile"; str "resticPasswordCommand"].

(** [DEFAULT_SETTINGS] as an object. *)
Definition default_object : object :=
  list_to_map
    [(str "enabled", JBool false);
     (str "resticBinPath", JString []);
     (str "resticRepository", JString []);
     (str "resticPasswordFile", JString []);
     (str "resticPasswordCommand", JString []);
     (str "resticTags", JString []);
     (str "backupInterval", JNumber (60 * 60) 0)].

(** The loop of [saveSettings]: the pair of [localSettings], which goes
    through [JSON.stringify] into [localStorage], and [dataSettings],
    which goes to [saveData]. *)
Definition saveSettings {V} (settings : gmap jsstring V)
  : gmap jsstring V * gmap jsstring V :=
  map_fold
    (fun key value '(localSettings, dataSettings) =>
       if bool_decide (key ∈ LOCAL_SETTINGS)
       then (set_own localSettings key value, dataSettings)
       else (localSettings, set_own dataSettings key value))
    (∅, ∅) settings.

(** A change made in the settings tab through the toggle or one of the
    text fields that store what was typed.  (The Backup Interval field
    stores [parseInt(value, 10)] and is not among them.) *)
Inductive change : Type :=
| SetEnabled (value : bool)
| SetResticBinPath (value : jsstring)
| SetResticRepository (value : jsstring)
| SetResticPasswordFile (value : jsstring)
| SetResticPasswordCommand (value : jsstring)
| SetResticTags (value : jsstring).

Definition change_key (c : change) : jsstring :=
  match c with
  | SetEnabled _ => str "enabled"
  | SetResticBinPath _ => str "resticBinPath"
  | SetResticRepository _ => str "resticRepository"
  | SetResticPasswordFile _ => str "resticPasswordFile"
  | SetResticPasswordCommand _ => str "resticPasswordCommand"
  | SetResticTags _ => str "resticTags"
  end.

Definition change_value (c : change) : json :=
  match c with
  | SetEnabled value => JBool value
  | SetResticBinPath value => JString value
  | SetResticRepository value => JString value
  | SetResticPasswordFile value => JString value
  | SetResticPasswordCommand value => JString value
  | SetResticTags value => JString value
  end.

(** The handlers of these fields, as
    <<
    .onChange(async (value) => {
      this.plugin.settings.resticRepository = value;
      await this.plugin.saveSettings();
    })
    >>
    The new settings and what is saved. *)
Definition onChange (c : change) (settings : object)
  : object * (object * object) :=
  let settings := <[change_key c := change_value c]> settings in
  (settings, saveSettings settings).

(** A number that is zero as a double: zero itself, or a decimal at most
    half the smallest positive double, [2 ^ -1075]. *)
Definition number_is_zero (m e : Z) : bool :=
  (m =? 0)%Z || ((e <? 0)%Z && (Z.abs m * 2 ^ 1075 <=? 10 ^ (- e))%Z).

(** [ToBoolean]; [None] is [undefined]. *)
Definition truthy (v : option json) : bool :=
  match v with
  | None => false
  | Some JNull => false
  | Some (JBool b) => b
  | Some (JNumber m e) => negb (number_is_zero m e)
  | Some (JString s) => negb (eqb s [])
  | Some (JArray _) => true
  | Some (JObject _) => true
  end.

Fixpoint uint_digits (d : Decimal.uint) : jsstring :=
  match d with
  | Decimal.Nil => []
  | Decimal.D0 d => 48 :: uint_digits d
  | Decimal.D1 d => 49 :: uint_digits d
  | Decimal.D2 d => 50 :: uint_digits d
  | Decimal.D3 d => 51 :: uint_digits d
  | Decimal.D4 d => 52 :: uint_digits d
  | Decimal.D5 d => 53 :: uint_digits d
  | Decimal.D6 d => 54 :: uint_digits d
  | Decimal.D7 d => 55 :: uint_digits d
  | Decimal.D8 d => 56 :: uint_digits d
  | Decimal.D9 d => 57 :: uint_digits d
  end.

(** The property name of an array index. *)
Definition index_key (i : nat) : jsstring := uint_digits (Nat.to_uint i).

(** The own enumerable properties of a value, in order: the members of an
    object, the elements of an array and the code units of a string under
    their indices; other values have none. *)
Definition own_entries (v : json) : list (jsstring * json) :=
  match v with
  | JObject members => members
  | JArray elements => imap (fun i x => (index_key i, x)) elements
  | JString s => imap (fun i c => (index_key i, JString [c])) s
  | _ => []
  end.

(** One source of [Object.assign]. *)
Definition assign_entries (target : object) (entries : list (jsstring * json)) : object :=
  fold_left (fun t kv => set_own t kv.1 kv.2) entries target.

(** [localSettings.resticBinPath], for a value of [JSON.parse]. *)
Definition get_resticBinPath (localSettings : json) : completion (option json) :=
  match localSettings with
  | JNull => Abrupt TypeError
  | JObject members => Normal (obj_get members (str "resticBinPath"))
  | _ => Normal None
  end.

(** [localSettings.resticBinPath = value] in strict code, as the own
    enumerable properties afterwards: a primitive cannot take a property. *)
Definition set_resticBinPath (localSettings : json) (value : json)
  : completion (list (jsstring * json)) :=
  match localSettings with
  | JObject members => Normal (obj_set members (str "resticBinPath") value)
  | JArray elements =>
      Normal (own_entries (JArray elements) ++ [(str "resticBinPath", value)])
  | _ => Abrupt TypeError
  end.

(** The text under the plugin's key in [localStorage] as a value: absent,
    empty or malformed text counts as the empty object. *)
Definition read_local (localJSON : option jsstring) : json :=
  match localJSON with
  | Some (c :: text) =>
      match JSON_parse (c :: text) with
      | Normal v => v
      | Abrupt _ => JObject []
      end
  | _ => JObject []
  end.

(** The host's data store as [loadData] shows it: what it gives on entry
    ([JNull] without a data file), and what it gives once [saveData] has
    been called with an object. *)
Record host : Type := Host {
  data_on_entry : json;
  data_after_save : object → json
}.

Record loaded : Type := Loaded {
  new_settings : object;
  written : option (object * object)
}.

(** <<
    async loadSettings() {
      let localSettings = {};
      const localJSON = window.localStorage.getItem(`${this.manifest.id}:settings`);
      if (localJSON) {
        try { localSettings = JSON.parse(localJSON); }
        catch (error) { console.assert(!error, ..., error); }
      }
      let saveSettings = false;
      if (!localSettings.resticBinPath) {
        localSettings.resticBinPath = await detectRestic();
        saveSettings = true;
      }
      if (saveSettings) { await this.saveSettings(); saveSettings = false; }
      this.settings = Object.assign({}, DEFAULT_SETTINGS, localSettings, await this.loadData());
    }
    >>
    [current] is [this.settings] on entry and [localJSON] the stored text
    ([None] when there is none). *)
Definition loadSettings (process_env : jsenv) (h : host) (current : object)
    (localJSON : option jsstring) : proc loaded :=
  let localSettings := read_local localJSON in
  binPath ← lift (get_resticBinPath localSettings);
  if truthy binPath then
    mret (Loaded (assign_entries
                    (assign_entries default_object (own_entries localSettings))
                    (own_entries (data_on_entry h)))
                 None)
  else
    detected ← detectRestic process_env;
    entries ← lift (set_resticBinPath localSettings
                      (match detected with
                       | Some path => JString path
                       | None => JNull
                       end));
    let saved := saveSettings current in
    mret (Loaded (assign_entries (assign_entries default_object entries)
                                 (own_entries (data_after_save h saved.2)))
                 (Some saved)).

(** What [onload] registers with the host. *)
Inductive registration : Type :=
| SettingTab
| Interval (backupInterval : json)
| Command.

Record started : Type := Started {
  settings_loaded : loaded;
  registered : list registration
}.

(** <<
    async onload() {
      await this.loadSettings();
      this.addSettingTab(new ResticBackupSettingTab(this.app, this));
      if (this.settings.enabled === false) { return; }
      if (this.settings.backupInterval) {
        this.registerInterval(window.setInterval(() => { this.resticBackup(); },
                                                 this.settings.backupInterval * 1000));
      }
      this.addCommand({ id: "restic-backup", name: "Backup", callback: ... });
    }
    >>
    [Interval v] stands for a timer whose period in milliseconds is [v]
    times 1000. *)
Definition onload (process_env : jsenv) (h : host) (current : object)
    (localJSON : option jsstring) : proc started :=
  l ← loadSettings process_env h current localJSON;
  let registered := [SettingTab] in
  match new_settings l !! str "enabled" with
  | Some (JBool false) => mret (Started l registered)
  | _ =>
      let registered :=
        match new_settings l !! str "backupInterval" with
        | Some v => if truthy (Some v) then registered ++ [Interval v] else registered
        | None => registered
        end in
      mret (Started l (registered ++ [Command]))
  end.

End Plugin.
Import Plugin.


(** A host whose data file holds [data] and gives back what is saved. *)
Definition reliable_host (data : json) : host :=
  Host data (fun saved => JObject (map_to_list saved)).

(** ** More sample data and vocabulary *)

(** What a recorded entry looks like. *)
Definition recorded_ok (key : jsstring) (value : envval) : Prop :=
  key ≠ [] ∧ key ≠ str "__proto__" ∧ (EQUALS ∉ key) ∧ (LF ∉ key)
  ∧ match value with
    | Undefined => True
    | Str v => (EQUALS ∉ v) ∧ (LF ∉ v)
    end.

(** What [env] prints for a list of variables: one [NAME=value] line
    each, every line ended by a line feed. *)
Definition print_env (vars : list (jsstring * jsstring)) : jsstring :=
  flat_map (fun kv => kv.1 ++ [EQUALS] ++ kv.2 ++ [LF]) vars.

(** A variable whose line is read back as written. *)
Definition plain_variable (kv : jsstring * jsstring) : Prop :=
  kv.1 ≠ [] ∧ kv.1 ≠ str "__proto__" ∧ (EQUALS ∉ kv.1) ∧ (LF ∉ kv.1)
  ∧ (EQUALS ∉ kv.2) ∧ (LF ∉ kv.2).

#[global] Instance plain_variable_dec kv : Decision (plain_variable kv).
Proof. unfold plain_variable. apply _. Defined.

Definition os_with_restic (c : exec_call) : exec_outcome :=
  if eqb (file c) (str "which")
  then Resolved (str "/opt/homebrew/bin/restic" ++ [LF]) []
  else Resolved (str "PATH=/opt/homebrew/bin" ++ [LF]) [].

Definition os_restic_prints (stdout : jsstring) (c : exec_call) : exec_outcome :=
  Resolved stdout [].

Definition os_restic_fails (c : exec_call) : exec_outcome :=
  Rejected (ChildProcessError (Some 1) (str "Fatal: wrong password")).

(** What resumes a suspended call of [resticBackup]. *)
Definition backup_result (o : exec_outcome) : completion json :=
  match o with
  | Resolved stdout _ => parseResticSummary stdout
  | Rejected e => Abrupt e
  end.

(** Every suspended run has a process number of its own, below the next
    one to hand out, and resumes as [resticBackup] does after its
    [await]. *)
Definition well_formed (st : state) : Prop :=
  NoDup (List.map pid (in_flight st))
  ∧ Forall (fun r => (pid r < next_pid st)%nat
                     ∧ ∀ o, resume r o = lift (backup_result o)) (in_flight st).

(** The value of [Object.assign({}, DEFAULT_SETTINGS, local, data)] at a
    name: the last source that has it wins. *)
Definition merged (members data : list (jsstring * json)) (key : jsstring)
  : option json :=
  match obj_get (rev data) key with
  | Some v => Some v
  | None =>
      match obj_get (rev members) key with
      | Some v => Some v
      | None => default_object !! key
      end
  end.

Definition stored_settings : jsstring :=
  text "{'enabled':true,'resticBinPath':'/usr/local/bin/restic','resticRepository':'/tmp/restic-repo','resticTags':'local'}".

Definition stored_without_path : jsstring :=
  text "{'enabled':true,'resticBinPath':'','resticRepository':'/tmp/restic-repo'}".

Definition stored_data : json :=
  JObject [(str "resticTags", JString (str "obsidian,notes"));
           (str "backupInterval", JNumber 0 0)].

(** * Properties *)

(** ** JavaScript strings and [JSON.parse] on examples *)

Example trim_ex : trim (str "  a b ") = str "a b".
Proof. reflexivity. Qed.

Example split_ex : split COMMA (str "  a, b ,,c ") = [str "  a"; str " b "; []; str "c "].
Proof. reflexivity. Qed.

Example split_limit_ex : split_limit EQUALS 2 (str "A=b=c") = [str "A"; str "b"].
Proof. reflexivity. Qed.

Example JSON_parse_object :
  JSON_parse (text " {'a': [1, -2.50e3, true, null], 'b': 'xA', 'a': {}} ")
  = Normal (JObject [(str "a", JObject []); (str "b", JString (str "xA"))]).
Proof. reflexivity. Qed.

Example JSON_parse_number : JSON_parse (str "1.25") = Normal (JNumber 125 (-2)).
Proof. reflexivity. Qed.

Example JSON_parse_noise : JSON_parse (str "noise") = Abrupt SyntaxError.
Proof. reflexivity. Qed.

Example JSON_parse_empty : JSON_parse [] = Abrupt SyntaxError.
Proof. reflexivity. Qed.

Example JSON_parse_trailing_comma : JSON_parse (str "[1,]") = Abrupt SyntaxError.
Proof. reflexivity. Qed.

Example parse_sample_output : parseResticSummary sample_output = Normal sample_summary.
Proof. vm_compute. reflexivity. Qed.

(** The per-line failures the loop catches. *)
Example try_line_null : try_line (str "null") = Abrupt TypeError.
Proof. reflexivity. Qed.

Example try_line_malformed : try_line (text "{'message_type':") = Abrupt SyntaxError.
Proof. reflexivity. Qed.

Example try_line_number : try_line (str "42") = Normal None.
Proof. reflexivity. Qed.

Example try_line_status : try_line (text "{'message_type':'status'}") = Normal None.
Proof. reflexivity. Qed.

(** ** The recursion budget of [JSON.parse] *)

Section ParserBudget.

Local Open Scope nat_scope.

Lemma skip_ws_length s : length (skip_ws s) ≤ length s.
Proof.
  induction s as [|c r IH]; simpl; [done|].
  destruct (is_json_ws c); simpl; lia.
Qed.

Lemma skip_ws_cons s c r : skip_ws s = c :: r → length r < length s.
Proof.
  intros H. pose proof (skip_ws_length s) as Hl. rewrite H in Hl.
  simpl in Hl. lia.
Qed.

Lemma push_char_POk c p v rest :
  push_char c p = POk v rest → ∃ v', p = POk v' rest.
Proof. destruct p; simpl; intros [=]; subst. by eexists. Qed.

Lemma parse_chars_length_le n s v rest :
  length s ≤ n → parse_chars s = POk v rest → length rest < length s.
Proof.
  revert s v rest. induction n as [|n IH]; intros s v rest Hn.
  { destruct s; [done|simpl in Hn; lia]. }
  destruct s as [|c r]; [done|]. simpl in Hn. simpl.
  repeat case_match; try done;
    try (intros [= <- <-]; simpl; lia);
    intros (v' & Hrec)%push_char_POk;
    apply IH in Hrec; simpl in *; subst; simpl in *; lia.
Qed.

Lemma parse_chars_length s v rest :
  parse_chars s = POk v rest → length rest < length s.
Proof. by apply (parse_chars_length_le (length s)). Qed.

Lemma push_char_fuel c p : push_char c p = PFuel → p = PFuel.
Proof. by destruct p. Qed.

Lemma parse_chars_fuel_le n s : length s ≤ n → parse_chars s ≠ PFuel.
Proof.
  revert s. induction n as [|n IH]; intros s Hn.
  { destruct s; [done|simpl in Hn; lia]. }
  destruct s as [|c r]; [done|]. simpl in Hn. simpl.
  repeat case_match; try done;
    intros Hrec%push_char_fuel; revert Hrec; apply IH;
    simpl in *; subst; simpl in *; lia.
Qed.

Lemma parse_chars_fuel s : parse_chars s ≠ PFuel.
Proof. by apply (parse_chars_fuel_le (length s)). Qed.

Lemma read_digits_length s acc count v n rest :
  read_digits s acc count = (v, n, rest) →
  length rest + n = length s + count.
Proof.
  revert acc count. induction s as [|c r IH]; intros acc count; simpl.
  - intros [= <- <- <-]. done.
  - destruct (is_digit c).
    + intros H%IH. lia.
    + intros [= <- <- <-]. simpl. lia.
Qed.

Lemma read_digits_rest s acc count v n rest :
  read_digits s acc count = (v, n, rest) → length rest ≤ length s.
Proof.
  revert acc count. induction s as [|c r IH]; intros acc count; simpl.
  - intros [= <- <- <-]. done.
  - destruct (is_digit c).
    + intros H%IH. lia.
    + intros [= <- <- <-]. simpl. lia.
Qed.

Lemma parse_int_length s v rest :
  parse_int s = POk v rest → length rest < length s.
Proof.
  destruct s as [|c r]; [done|]. unfold parse_int.
  destruct (c =? 48)%N; [intros [= <- <-]; simpl; lia|].
  destruct (is_digit c) eqn:Hd; [|done].
  destruct (read_digits (c :: r) 0 0) as [[v' n] rest'] eqn:Hread.
  intros [= <- <-]. simpl in Hread. rewrite Hd in Hread.
  apply read_digits_rest in Hread. simpl. lia.
Qed.

Lemma parse_frac_length m s v rest :
  parse_frac m s = POk v rest → length rest ≤ length s.
Proof.
  destruct s as [|c r]; simpl; [by intros [= <- <-]|].
  destruct (c =? 46)%N; [|by intros [= <- <-]].
  destruct (read_digits r m 0) as [[v' n] rest'] eqn:Hread.
  apply read_digits_rest in Hread.
  destruct n; [done|]. intros [= <- <-]. lia.
Qed.

Lemma parse_exp_length s v rest :
  parse_exp s = POk v rest → length rest ≤ length s.
Proof.
  destruct s as [|c r]; simpl; [by intros [= <- <-]|].
  destruct ((c =? 101)%N || (c =? 69)%N); [|by intros [= <- <-]].
  destruct (match r with
            | [] => (false, r)
            | g :: r' => if (g =? 45)%N then (true, r')
                         else if (g =? 43)%N then (false, r') else (false, r)
            end) as [neg r1] eqn:Hsign.
  assert (length r1 ≤ length r) as Hr1.
  { destruct r as [|g r']; [by injection Hsign as <- <-|].
    repeat case_match; injection Hsign as <- <-; simpl; lia. }
  destruct (read_digits r1 0 0) as [[v' n] rest'] eqn:Hread.
  apply read_digits_rest in Hread.
  destruct n; [done|]. intros [= <- <-]. lia.
Qed.

Lemma parse_number_length s v rest :
  parse_number s = POk v rest → length rest < length s.
Proof.
  unfold parse_number.
  destruct (match s with
            | [] => (false, s)
            | c :: r => if (c =? 45)%N then (true, r) else (false, s)
            end) as [neg s1] eqn:Hsign.
  assert (length s1 ≤ length s) as Hs1.
  { destruct s as [|c r]; [by injection Hsign as <- <-|].
    case_match; injection Hsign as <- <-; simpl; lia. }
  destruct (parse_int s1) as [i s2| |] eqn:Hint; try done.
  apply parse_int_length in Hint.
  destruct (parse_frac i s2) as [[m fe] s3| |] eqn:Hfrac; try done.
  apply parse_frac_length in Hfrac.
  destruct (parse_exp s3) as [e s4| |] eqn:Hexp; try done.
  apply parse_exp_length in Hexp.
  intros [= <- <-]. lia.
Qed.

Lemma parse_number_fuel s : parse_number s ≠ PFuel.
Proof. unfold parse_number. by repeat case_match. Qed.

Lemma strip_prefix_length p s rest :
  strip_prefix p s = Some rest → length rest + length p = length s.
Proof.
  revert s. induction p as [|a p IH]; intros s; simpl.
  - by intros [= <-].
  - destruct s as [|b s]; [done|]. destruct (a =? b)%N; [|done].
    intros H%IH. simpl. lia.
Qed.

Lemma parse_literal_length word v s w rest :
  word ≠ EmptyString →
  parse_literal word v s = POk w rest → length rest < length s.
Proof.
  intros Hword. unfold parse_literal.
  destruct (strip_prefix (str word) s) as [r|] eqn:Hstrip; [|done].
  intros [= <- <-]. apply strip_prefix_length in Hstrip.
  destruct word; [done|]. simpl in Hstrip. lia.
Qed.

Lemma parse_literal_fuel word v s : parse_literal word v s ≠ PFuel.
Proof. unfold parse_literal. by case_match. Qed.


Lemma parse_length fuel :
  (∀ s v rest, parse_value fuel s = POk v rest → length rest < length s)
  ∧ (∀ s acc v rest, parse_elements fuel s acc = POk v rest → length rest < length s)
  ∧ (∀ s acc v rest, parse_members fuel s acc = POk v rest → length rest < length s).
Proof.
  induction fuel as [|fuel (IHv & IHe & IHm)]; [done|].
  split; [|split].
  - intros s v rest. simpl.
    destruct (skip_ws s) as [|c r] eqn:Hs; [done|].
    apply skip_ws_cons in Hs.
    destruct (c =? 123)%N.
    { destruct (skip_ws r) as [|c1 r1] eqn:Hr; [done|].
      pose proof (skip_ws_length r) as Hlen. rewrite Hr in Hlen.
      destruct (c1 =? 125)%N.
      - intros [= <- <-]. simpl in Hlen. lia.
      - intros H%IHm. lia. }
    destruct (c =? 91)%N.
    { destruct (skip_ws r) as [|c1 r1] eqn:Hr; [done|].
      pose proof (skip_ws_length r) as Hlen. rewrite Hr in Hlen.
      destruct (c1 =? 93)%N.
      - intros [= <- <-]. simpl in Hlen. lia.
      - intros H%IHe. lia. }
    destruct (c =? 34)%N.
    { destruct (parse_chars r) as [t rest'| |] eqn:Hchars; try done.
      apply parse_chars_length in Hchars. intros [= <- <-]. lia. }
    repeat case_match;
      (intros Hrec%parse_literal_length; [|done]) || intros Hrec%parse_number_length;
      simpl in Hrec; lia.
  - intros s acc v rest. simpl.
    destruct (parse_value fuel s) as [w rest1| |] eqn:Hv; try done.
    apply IHv in Hv.
    destruct (skip_ws rest1) as [|c r] eqn:Hr; [done|].
    apply skip_ws_cons in Hr.
    repeat case_match; try done.
    + intros Hrec%IHe. lia.
    + intros [= <- <-]. lia.
  - intros s acc v rest. simpl.
    destruct (skip_ws s) as [|c r] eqn:Hs; [done|].
    apply skip_ws_cons in Hs.
    destruct (c =? 34)%N; [|done].
    destruct (parse_chars r) as [key rest0| |] eqn:Hchars; try done.
    apply parse_chars_length in Hchars.
    destruct (skip_ws rest0) as [|c1 r1] eqn:Hr0; [done|].
    apply skip_ws_cons in Hr0.
    destruct (c1 =? 58)%N; [|done].
    destruct (parse_value fuel r1) as [w rest1| |] eqn:Hv; try done.
    apply IHv in Hv.
    destruct (skip_ws rest1) as [|c2 r2] eqn:Hr1; [done|].
    apply skip_ws_cons in Hr1.
    repeat case_match; try done.
    + intros Hrec%IHm. lia.
    + intros [= <- <-]. lia.
Qed.

Lemma parse_fuel fuel :
  (∀ s, 2 * length s + 1 ≤ fuel → parse_value fuel s ≠ PFuel)
  ∧ (∀ s acc, 2 * length s + 2 ≤ fuel → parse_elements fuel s acc ≠ PFuel)
  ∧ (∀ s acc, 2 * length s + 2 ≤ fuel → parse_members fuel s acc ≠ PFuel).
Proof.
  induction fuel as [|fuel (IHv & IHe & IHm)].
  { repeat split; intros; lia. }
  split; [|split].
  - intros s Hfuel. simpl.
    destruct (skip_ws s) as [|c r] eqn:Hs; [done|].
    apply skip_ws_cons in Hs.
    destruct (c =? 123)%N.
    { destruct (skip_ws r) as [|c1 r1] eqn:Hr; [done|].
      pose proof (skip_ws_length r) as Hlen. rewrite Hr in Hlen.
      destruct (c1 =? 125)%N; [done|]. apply IHm. lia. }
    destruct (c =? 91)%N.
    { destruct (skip_ws r) as [|c1 r1] eqn:Hr; [done|].
      pose proof (skip_ws_length r) as Hlen. rewrite Hr in Hlen.
      destruct (c1 =? 93)%N; [done|]. apply IHe. lia. }
    destruct (c =? 34)%N; [by case_match|].
    repeat case_match; auto using parse_literal_fuel, parse_number_fuel.
  - intros s acc Hfuel. simpl.
    destruct (parse_value fuel s) as [w rest1| |] eqn:Hv; try done.
    + apply (proj1 (parse_length fuel)) in Hv.
      destruct (skip_ws rest1) as [|c r] eqn:Hr; [done|].
      apply skip_ws_cons in Hr.
      repeat case_match; try done. apply IHe. lia.
    + exfalso. revert Hv. apply IHv. lia.
  - intros s acc Hfuel. simpl.
    destruct (skip_ws s) as [|c r] eqn:Hs; [done|].
    apply skip_ws_cons in Hs.
    destruct (c =? 34)%N; [|done].
    destruct (parse_chars r) as [key rest0| |] eqn:Hchars; try done.
    apply parse_chars_length in Hchars.
    destruct (skip_ws rest0) as [|c1 r1] eqn:Hr0; [done|].
    apply skip_ws_cons in Hr0.
    destruct (c1 =? 58)%N; [|done].
    destruct (parse_value fuel r1) as [w rest1| |] eqn:Hv; try done.
    + apply (proj1 (parse_length fuel)) in Hv.
      destruct (skip_ws rest1) as [|c2 r2] eqn:Hr1; [done|].
      apply skip_ws_cons in Hr1.
      repeat case_match; try done. apply IHm. lia.
    + exfalso. revert Hv. apply IHv. lia.
Qed.

(** The recursion budget of [JSON_parse] is never exhausted: a rejected
    text is rejected for its syntax. *)
Lemma parse_value_fuel text :
  parse_value (2 * length text + 1) text ≠ PFuel.
Proof. by apply parse_fuel. Qed.

End ParserBudget.

(** ** The summary parser *)

Section SummaryFacts.

Lemma try_line_Some line v :
  try_line line = Normal (Some v) ↔ parses_as_summary line v.
Proof.
  unfold try_line, parses_as_summary, mbind, completion_bind, mret, completion_ret.
  split.
  - destruct (JSON_parse line) as [msg|e]; [|discriminate].
    destruct msg as [| b | m e | t | els | members]; simpl; try discriminate.
    destruct (obj_get members (str "message_type")) as [[| | | t | |]|] eqn:Hget;
      simpl; try discriminate.
    unfold eqb. case_bool_decide as Ht; [|discriminate].
    intros [= <-]. split; [done|]. exists members. split; [done|]. rewrite Hget. exact (f_equal (fun x => Some (JString x)) Ht).
  - intros [-> (members & -> & Hget)]. simpl. rewrite Hget. reflexivity.
Qed.

Lemma scan_skip line rest :
  not_summary line → scan (line :: rest) = scan rest.
Proof.
  intros Hno. simpl.
  destruct (try_line line) as [[v|]|e] eqn:Htry; try done.
  apply try_line_Some in Htry. by destruct (Hno v).
Qed.

Lemma scan_skip_all before rest :
  Forall not_summary before → scan (before ++ rest) = scan rest.
Proof.
  induction 1 as [|line before Hline _ IH]; [done|].
  rewrite <- app_comm_cons, scan_skip by done. exact IH.
Qed.

Lemma scan_found line rest v :
  parses_as_summary line v → scan (line :: rest) = Normal v.
Proof. intros Hv. apply try_line_Some in Hv. simpl. by rewrite Hv. Qed.

Lemma scan_outcome lines :
  (∃ line v, line ∈ lines ∧ parses_as_summary line v ∧ scan lines = Normal v)
  ∨ (Forall not_summary lines ∧ scan lines = Abrupt no_summary).
Proof.
  induction lines as [|line lines IH]; [right; by split|].
  destruct (try_line line) as [[v|]|e] eqn:Htry.
  - left. exists line, v. apply try_line_Some in Htry as Hv.
    split; [by left|]. split; [done|]. by apply scan_found.
  - assert (not_summary line) as Hno.
    { intros v Hv. apply try_line_Some in Hv. congruence. }
    rewrite scan_skip by done.
    destruct IH as [(l & v & Hin & Hv & Hscan)|[Hall Hscan]].
    + left. exists l, v. split; [by right|]. done.
    + right. split; [by constructor|done].
  - assert (not_summary line) as Hno.
    { intros v Hv. apply try_line_Some in Hv. congruence. }
    rewrite scan_skip by done.
    destruct IH as [(l & v & Hin & Hv & Hscan)|[Hall Hscan]].
    + left. exists l, v. split; [by right|]. done.
    + right. split; [by constructor|done].
Qed.

End SummaryFacts.

Lemma skipped_not_summary line : skipped line = true → not_summary line.
Proof.
  unfold skipped. intros Hskip v Hv. apply try_line_Some in Hv.
  by rewrite Hv in Hskip.
Qed.

Lemma all_skipped lines :
  forallb skipped lines = true → ∀ l, l ∈ lines → not_summary l.
Proof.
  intros Hall l Hin. apply skipped_not_summary.
  rewrite forallb_forall in Hall. by apply Hall, list_elem_of_In.
Qed.

(** C3 fails as stated: in a form feed followed by a summary event no
    line of the text parses as a summary record, the form feed not being
    JSON, yet the parser returns the record, because it trims the form
    feed off the text before it splits it. *)
Lemma form_feed_summary_is_returned :
  (∀ line, line ∈ split LF form_feed_output → not_summary line)
  ∧ parseResticSummary form_feed_output
    = Normal (JObject [(str "message_type", JString (str "summary"))])
  ∧ parseResticSummary form_feed_output
    ≠ Abrupt (Error (str "No summary found in restic output")).
Proof.
  split; [|split].
  - apply all_skipped. vm_compute. reflexivity.
  - vm_compute. reflexivity.
  - vm_compute. discriminate.
Qed.

(** C3, as amended.  When none of the lines of the output as trimmed of
    the white space at its two ends (and then split at line feeds) parses
    as a summary record, the parser throws the error "No summary found in
    restic output"; it returns no value.  The empty output is the case of
    a single empty line. *)
Theorem parseResticSummary_no_summary (stdout : jsstring) :
  (∀ line, line ∈ lines_of stdout → not_summary line) →
  parseResticSummary stdout = Abrupt (Error (str "No summary found in restic output")).
Proof.
  intros Hnone. unfold parseResticSummary.
  rewrite <- (app_nil_r (lines_of stdout)).
  rewrite scan_skip_all; [done|]. by apply Forall_forall.
Qed.

Lemma parseResticSummary_no_summary_witness :
  (∀ line, line ∈ lines_of noise_output → not_summary line)
  ∧ parseResticSummary noise_output
    = Abrupt (Error (str "No summary found in restic output")).
Proof.
  assert (∀ line, line ∈ lines_of noise_output → not_summary line) as Hnone.
  { apply all_skipped. vm_compute. reflexivity. }
  split; [exact Hnone|].
  exact (parseResticSummary_no_summary noise_output Hnone).
Defined.

(** The output is trimmed as a whole before it is split, with the white
    space of [trim], which is more than the white space of JSON. *)
Example lines_of_trims_first :
  lines_of ([LF; 12] ++ text "{'message_type':'summary'}" ++ [32; LF; LF])
  = [text "{'message_type':'summary'}"]
  ∧ JSON_parse ([12] ++ text "{'message_type':'summary'}") = Abrupt SyntaxError.
Proof. split; reflexivity. Qed.

Example parseResticSummary_empty_output :
  parseResticSummary [] = Abrupt (Error (str "No summary found in restic output")).
Proof. reflexivity. Qed.

(** C4 fails as stated: of the two lines of this text the first is not
    well-formed, for its leading form feed, and the second is a summary
    record, yet the parser returns the record of the first line, which it
    has trimmed. *)
Lemma form_feed_line_is_not_skipped :
  split LF form_feed_two_summaries
  = [[12] ++ text "{'message_type':'summary','snapshot_id':'first'}";
     text "{'message_type':'summary','snapshot_id':'second'}"]
  ∧ not_summary ([12] ++ text "{'message_type':'summary','snapshot_id':'first'}")
  ∧ parses_as_summary (text "{'message_type':'summary','snapshot_id':'second'}")
      (JObject [(str "message_type", JString (str "summary"));
                (str "snapshot_id", JString (str "second"))])
  ∧ parseResticSummary form_feed_two_summaries
    = Normal (JObject [(str "message_type", JString (str "summary"));
                       (str "snapshot_id", JString (str "first"))])
  ∧ parseResticSummary form_feed_two_summaries
    ≠ Normal (JObject [(str "message_type", JString (str "summary"));
                       (str "snapshot_id", JString (str "second"))]).
Proof.
  split; [vm_compute; reflexivity|]. split; [|split; [|split]].
  - apply skipped_not_summary. vm_compute. reflexivity.
  - split; [vm_compute; reflexivity|]. eexists. split; [reflexivity|].
    vm_compute. reflexivity.
  - vm_compute. reflexivity.
  - vm_compute. discriminate.
Qed.

(** C4, as amended.  The lines of the output as trimmed of the white space
    at its two ends are scanned in order: lines that are malformed or are
    not summary records are passed over, and the first line that parses as
    a summary record [v] decides the result, which is [v] itself, whatever
    follows it (further summary lines included) and whatever noise
    precedes it. *)
Theorem parseResticSummary_first_summary (stdout : jsstring)
    (before after : list jsstring) (line : jsstring) (v : json) :
  lines_of stdout = before ++ line :: after →
  (∀ l, l ∈ before → not_summary l) →
  parses_as_summary line v →
  parseResticSummary stdout = Normal v.
Proof.
  intros Hlines Hbefore Hline. unfold parseResticSummary. rewrite Hlines.
  rewrite scan_skip_all by (by apply Forall_forall).
  by apply scan_found.
Qed.

Lemma parseResticSummary_first_summary_witness :
  parseResticSummary sample_output = Normal sample_summary
  ∧ obj_get [ (str "message_type", JString (str "summary"));
              (str "files_new", JNumber 3 0);
              (str "files_changed", JNumber 1 0);
              (str "total_files_processed", JNumber 10 0);
              (str "total_duration", JNumber 125 (-2));
              (str "snapshot_id", JString (str "abc123")) ]
            (str "total_duration") = Some (JNumber 125 (-2)).
Proof.
  split; [|reflexivity].
  apply (parseResticSummary_first_summary sample_output
           [str "noise"; text "{'message_type':'status'}"]
           [str "trailing"]
           (text "{'message_type':'summary','files_new':3,'files_changed':1,'total_files_processed':10,'total_duration':1.25,'snapshot_id':'abc123'}")).
  - vm_compute. reflexivity.
  - apply all_skipped. vm_compute. reflexivity.
  - split; [vm_compute; reflexivity|]. eexists. split; [reflexivity|].
    vm_compute. reflexivity.
Defined.

Example parseResticSummary_two_summaries :
  parseResticSummary two_summaries_output
  = Normal (JObject [(str "message_type", JString (str "summary"));
                     (str "snapshot_id", JString (str "first"))]).
Proof. vm_compute. reflexivity. Qed.

(** C9.  The parser is total and has two outcomes only: it returns the
    value of a scanned line that parses as a summary record, or it throws
    the error "No summary found in restic output".  The [SyntaxError] of
    [JSON.parse] and the [TypeError] of reading a property of [null] never
    leave the loop. *)
Theorem parseResticSummary_total (stdout : jsstring) :
  (∃ line v, line ∈ lines_of stdout ∧ parses_as_summary line v
             ∧ parseResticSummary stdout = Normal v)
  ∨ parseResticSummary stdout = Abrupt (Error (str "No summary found in restic output")).
Proof.
  unfold parseResticSummary.
  destruct (scan_outcome (lines_of stdout)) as [Hfound|[_ Hscan]].
  - by left.
  - by right.
Qed.

(** C10.  No field of the summary is validated: when the first summary
    line parses to an object, with whatever members besides
    [message_type], the result is that very object as [JSON.parse]
    produced it. *)
Theorem parseResticSummary_returns_object_unvalidated (stdout : jsstring)
    (before after : list jsstring) (line : jsstring)
    (members : list (jsstring * json)) :
  lines_of stdout = before ++ line :: after →
  (∀ l, l ∈ before → not_summary l) →
  JSON_parse line = Normal (JObject members) →
  obj_get members (str "message_type") = Some (JString (str "summary")) →
  parseResticSummary stdout = JSON_parse line
  ∧ parseResticSummary stdout = Normal (JObject members).
Proof.
  intros Hlines Hbefore Hparse Htype.
  assert (parseResticSummary stdout = Normal (JObject members)) as Hres.
  { unfold parseResticSummary. rewrite Hlines.
    rewrite scan_skip_all by (by apply Forall_forall).
    apply scan_found. split; [done|]. by exists members. }
  split; [by rewrite Hparse|done].
Qed.

Lemma parseResticSummary_returns_object_unvalidated_witness :
  parseResticSummary bare_summary_output
  = Normal (JObject [(str "message_type", JString (str "summary"));
                     (str "extra", JArray [JBool true; JNull])]).
Proof.
  apply (parseResticSummary_returns_object_unvalidated bare_summary_output
           [] [] bare_summary_output).
  - vm_compute. reflexivity.
  - intros l Hl. by apply elem_of_nil in Hl.
  - vm_compute. reflexivity.
  - vm_compute. reflexivity.
Defined.

(** ** Running [async] functions *)

Section ProcFacts.
Context {A B : Type}.
Variable os : exec_call → exec_outcome.

Lemma run_bind (p : proc A) (f : A → proc B) :
  run os (p ≫= f) =
  match run os p with
  | (Normal a, calls) => let '(c, more) := run os (f a) in (c, calls ++ more)
  | (Abrupt e, calls) => (Abrupt e, calls)
  end.
Proof.
  induction p as [a|e|c k IH]; simpl.
  - by destruct (run os (f a)).
  - done.
  - change (run os (k (os c) ≫= f)) with (run os (mbind f (k (os c)))).
    rewrite IH. destruct (run os (k (os c))) as [[a|e] calls]; [|done].
    by destruct (run os (f a)).
Qed.
End ProcFacts.

Lemma run_try_catch {A} os (body : proc A) (handler : js_error → proc A) :
  run os (try_catch body handler) =
  match run os body with
  | (Normal a, calls) => (Normal a, calls)
  | (Abrupt e, calls) => let '(c, more) := run os (handler e) in (c, calls ++ more)
  end.
Proof.
  induction body as [a|e|c k IH]; simpl.
  - done.
  - by destruct (run os (handler e)).
  - rewrite IH. destruct (run os (k (os c))) as [[a|e] calls]; [done|].
    by destruct (run os (handler e)).
Qed.

Lemma run_execFile os file args env :
  run os (execFile file args env) =
  (match os (ExecCall file args env) with
   | Resolved stdout _ => Normal stdout
   | Rejected e => Abrupt e
   end, [ExecCall file args env]).
Proof. simpl. by destruct (os _). Qed.

(** ** The backup run *)

(** C1.  With an empty repository setting, [resticBackup] throws the error
    "Restic repository not configured" as its first action: the call
    contains no [execFile], so running it starts no child process and
    passes no arguments or environment to one, and a trigger leaves the
    set of children in flight as it was. *)
Theorem resticBackup_repository_not_configured
    (process_env : jsenv) (basePath : jsstring) (s : settings) :
  resticRepository s = [] →
  resticBackup process_env basePath s
    = Throw (Error (str "Restic repository not configured"))
  ∧ (∀ os, run os (resticBackup process_env basePath s)
           = (Abrupt (Error (str "Restic repository not configured")), []))
  ∧ (∀ launch st,
        in_flight (step launch process_env basePath s st Trigger) = in_flight st).
Proof.
  intros Hrepo. unfold step, resticBackup. rewrite Hrepo. done.
Qed.

Lemma resticBackup_repository_not_configured_witness :
  resticRepository unconfigured_settings = []
  ∧ ∀ os, run os (resticBackup sample_env (str "/vault") unconfigured_settings)
          = (Abrupt (Error (str "Restic repository not configured")), []).
Proof.
  split; [reflexivity|].
  apply (resticBackup_repository_not_configured sample_env (str "/vault")
           unconfigured_settings).
  reflexivity.
Defined.

(** C8.  With a non-empty repository setting, [resticBackup] reaches
    [execFile] with an environment that has [RESTIC_REPOSITORY] set to the
    repository, [RESTIC_PASSWORD_FILE] set to the configured file exactly
    when that setting is non-empty (otherwise the variable is as in
    [process.env]), [RESTIC_PASSWORD_COMMAND] likewise, both at once when
    both are configured, and every other variable as in [process.env]. *)
Theorem resticBackup_environment
    (process_env : jsenv) (basePath : jsstring) (s : settings) :
  resticRepository s ≠ [] →
  ∃ k, resticBackup process_env basePath s
       = Await (ExecCall (resticBinPath s) (resticBackup_args basePath s)
                         (resticBackup_env process_env s)) k
     ∧ resticBackup_env process_env s !! RESTIC_REPOSITORY
       = Some (Str (resticRepository s))
     ∧ resticBackup_env process_env s !! RESTIC_PASSWORD_FILE
       = (if decide (resticPasswordFile s = [])
          then process_env !! RESTIC_PASSWORD_FILE
          else Some (Str (resticPasswordFile s)))
     ∧ resticBackup_env process_env s !! RESTIC_PASSWORD_COMMAND
       = (if decide (resticPasswordCommand s = [])
          then process_env !! RESTIC_PASSWORD_COMMAND
          else Some (Str (resticPasswordCommand s)))
     ∧ (∀ name, name ≠ RESTIC_REPOSITORY → name ≠ RESTIC_PASSWORD_FILE →
                name ≠ RESTIC_PASSWORD_COMMAND →
                resticBackup_env process_env s !! name = process_env !! name).
Proof.
  intros Hrepo. unfold resticBackup.
  destruct (resticRepository s) as [|c repo] eqn:Erepo; [done|].
  eexists. split; [reflexivity|].
  unfold resticBackup_env, eqb. rewrite Erepo.
  assert (RESTIC_REPOSITORY ≠ RESTIC_PASSWORD_FILE) as H1 by (by vm_compute).
  assert (RESTIC_REPOSITORY ≠ RESTIC_PASSWORD_COMMAND) as H2 by (by vm_compute).
  assert (RESTIC_PASSWORD_FILE ≠ RESTIC_PASSWORD_COMMAND) as H3 by (by vm_compute).
  repeat split; try (intros name ? ? ?);
    repeat case_bool_decide; repeat case_decide;
    by simplify_map_eq.
Qed.

Lemma resticBackup_environment_witness :
  resticBackup_env sample_env both_passwords_settings !! RESTIC_PASSWORD_FILE
  = Some (Str (str "/path/to/password-file"))
  ∧ resticBackup_env sample_env both_passwords_settings !! RESTIC_PASSWORD_COMMAND
  = Some (Str (str "pass show restic"))
  ∧ resticBackup_env sample_env both_passwords_settings !! str "SHELL"
  = Some (Str (str "/bin/zsh")).
Proof.
  destruct (resticBackup_environment sample_env (str "/vault") both_passwords_settings)
    as (k & _ & _ & Hfile & Hcommand & Hother).
  - vm_compute. discriminate.
  - split; [exact Hfile|]. split; [exact Hcommand|].
    rewrite Hother; [by vm_compute|by vm_compute..].
Defined.

Lemma split_nonempty sep s : split sep s ≠ [].
Proof.
  destruct s as [|c r]; simpl; [done|].
  destruct (c =? sep); [done|]. by destruct (split sep r).
Qed.

Lemma push_tags_flat_map args tags :
  push_tags args tags = args ++ flat_map (fun tag => [str "--tag"; tag]) tags.
Proof.
  unfold push_tags. revert args.
  induction tags as [|tag tags IH]; intros args; simpl.
  - by rewrite app_nil_r.
  - rewrite IH. by rewrite <- app_assoc.
Qed.

Lemma flat_map_map {X Y Z : Type} (f : X → Y) (g : Y → list Z) l :
  flat_map g (List.map f l) = flat_map (fun x => g (f x)) l.
Proof. induction l as [|x l IH]; simpl; [done|]. by rewrite IH. Qed.

(** C5, as amended.  The tag arguments are one ["--tag"] and the trimmed
    piece for every piece of the tag string between commas, in order;
    pieces that are empty after trimming are kept, as empty tag values.
    An empty tag string appends nothing. *)
Theorem resticBackup_args_tags (basePath : jsstring) (s : settings) :
  resticBackup_args basePath s
  = [str "backup"; basePath; str "--json"; str "--skip-if-unchanged"]
    ++ (if decide (resticTags s = []) then []
        else flat_map (fun piece => [str "--tag"; trim piece])
                      (split COMMA (resticTags s))).
Proof.
  unfold resticBackup_args, eqb.
  case_bool_decide as Htags; case_decide; try done.
  destruct (List.map trim (split COMMA (resticTags s))) as [|t ts] eqn:Hmap.
  { apply map_eq_nil in Hmap. by destruct (split_nonempty COMMA (resticTags s)). }
  change (0 <? length (t :: ts))%nat with true. cbv iota.
  rewrite push_tags_flat_map, <- Hmap. by rewrite flat_map_map.
Qed.


(** C5 fails as stated: the tag string ["  a, b ,,c "] yields the four
    tags ["a"], ["b"], the empty string and ["c"], not the three ["a"], ["b"], ["c"]. *)
Lemma tags_keep_empty_element :
  resticBackup_args (str "/vault") sample_settings
  = [str "backup"; str "/vault"; str "--json"; str "--skip-if-unchanged";
     str "--tag"; str "a"; str "--tag"; str "b"; str "--tag"; [];
     str "--tag"; str "c"]
  ∧ resticBackup_args (str "/vault") sample_settings
  ≠ [str "backup"; str "/vault"; str "--json"; str "--skip-if-unchanged";
     str "--tag"; str "a"; str "--tag"; str "b"; str "--tag"; str "c"].
Proof. split; [by vm_compute|]. vm_compute. discriminate. Qed.

(** ** Overlapping runs *)

(** C2 fails as stated: two triggers in a row leave two children in
    flight, and neither call has been rejected. *)
Lemma two_triggers_two_children :
  ¬ single_flight launch_unless_empty ∅ (str "/vault") sample_settings
  ∧ length (in_flight (steps launch_unless_empty ∅ (str "/vault") sample_settings
                         [Trigger; Trigger] initial)) = 2%nat
  ∧ settled (steps launch_unless_empty ∅ (str "/vault") sample_settings
               [Trigger; Trigger] initial) = [].
Proof.
  split; [|split; by vm_compute].
  intros Hsingle. specialize (Hsingle [Trigger; Trigger]).
  vm_compute in Hsingle. lia.
Qed.

Lemma take_other p runs r others (x : suspended) :
  take p runs = Some (r, others) → x ∈ runs → pid x ≠ p → x ∈ others.
Proof.
  unfold take. destruct (List.find _ runs); [|done].
  intros [= _ <-] Hin Hpid.
  apply list_elem_of_In, filter_In. split; [by apply list_elem_of_In|].
  apply negb_true_iff, Nat.eqb_neq. done.
Qed.

Lemma advance_keeps launch st p (x : suspended) :
  x ∈ in_flight st → x ∈ in_flight (advance launch st p).
Proof.
  intros Hin. induction p as [v|e|c k IH]; simpl; try done.
  destruct (launch c) as [e|]; [apply IH|]. simpl. apply elem_of_app. by left.
Qed.

(** C2, as amended.  There is no run-state flag and no busy error: with
    a non-empty repository setting every trigger reaches [execFile],
    whatever is already in flight.  When [execFile] starts a child, the
    run joins those in flight and nothing is settled at that point; when
    it throws on the spot, no child is started and the call is rejected
    at once with that error.  A run leaves the set of runs in flight only
    through the exit of its own child. *)
Theorem trigger_is_unguarded
    (launch : exec_call → option js_error)
    (process_env : jsenv) (basePath : jsstring) (s : settings) (st : state) :
  resticRepository s ≠ [] →
  (launch (ExecCall (resticBinPath s) (resticBackup_args basePath s)
                    (resticBackup_env process_env s)) = None →
   (∃ k, in_flight (step launch process_env basePath s st Trigger)
         = in_flight st
           ++ [Suspended (next_pid st)
                 (ExecCall (resticBinPath s) (resticBackup_args basePath s)
                           (resticBackup_env process_env s)) k])
   ∧ settled (step launch process_env basePath s st Trigger) = settled st)
  ∧ (∀ e, launch (ExecCall (resticBinPath s) (resticBackup_args basePath s)
                           (resticBackup_env process_env s)) = Some e →
          in_flight (step launch process_env basePath s st Trigger) = in_flight st
          ∧ settled (step launch process_env basePath s st Trigger)
            = settled st ++ [Abrupt e])
  ∧ (∀ r ev, r ∈ in_flight st → (∀ o, ev ≠ ChildExit (pid r) o) →
             r ∈ in_flight (step launch process_env basePath s st ev)).
Proof.
  intros Hrepo. split; [|split].
  - intros Hlaunch. unfold step, resticBackup.
    destruct (resticRepository s) as [|c repo]; [done|]. simpl.
    rewrite Hlaunch. simpl. split; [by eexists|done].
  - intros e Hlaunch. unfold step, resticBackup.
    destruct (resticRepository s) as [|c repo]; [done|]. simpl.
    by rewrite Hlaunch.
  - intros r ev Hin Hev. destruct ev as [|p o]; simpl.
    + by apply advance_keeps.
    + destruct (take p (in_flight st)) as [[r' others]|] eqn:Htake; [|done].
      apply advance_keeps. simpl. eapply take_other; [done..|].
      intros <-. by destruct (Hev o).
Qed.

Lemma trigger_is_unguarded_witness :
  length (in_flight (step launch_unless_empty sample_env (str "/vault") sample_settings
                       (step launch_unless_empty sample_env (str "/vault")
                          sample_settings initial Trigger)
                       Trigger)) = 2%nat
  ∧ in_flight (step launch_unless_empty sample_env (str "/vault")
                 settings_without_binary initial Trigger) = []
  ∧ settled (step launch_unless_empty sample_env (str "/vault")
               settings_without_binary initial Trigger) = [Abrupt TypeError].
Proof.
  assert (resticRepository sample_settings ≠ []) as Hrepo by discriminate.
  assert (resticRepository settings_without_binary ≠ []) as Hrepo' by discriminate.
  split.
  - destruct (proj1 (trigger_is_unguarded launch_unless_empty sample_env (str "/vault")
                       sample_settings
                       (step launch_unless_empty sample_env (str "/vault")
                          sample_settings initial Trigger)
                       Hrepo) eq_refl) as [[k2 ->] _].
    destruct (proj1 (trigger_is_unguarded launch_unless_empty sample_env (str "/vault")
                       sample_settings initial Hrepo) eq_refl) as [[k1 ->] _].
    reflexivity.
  - exact (proj1 (proj2 (trigger_is_unguarded launch_unless_empty sample_env
                           (str "/vault") settings_without_binary initial Hrepo'))
             TypeError eq_refl).
Defined.

(** ** Locating the restic binary *)

(** C7 fails as stated: with [SHELL] unset the environment resolution
    throws and [detectRestic] throws the same error instead of returning
    [null]. *)
Lemma detectRestic_propagates_missing_shell :
  run os_without_restic (getShellEnv ∅)
  = (Abrupt (Error (str "SHELL environment variable is set")), [])
  ∧ run os_without_restic (detectRestic ∅)
  = (Abrupt (Error (str "SHELL environment variable is set")), [])
  ∧ (run os_without_restic (detectRestic ∅)).1 ≠ Normal None.
Proof. split; [|split]; by vm_compute. Qed.

(** C7, as amended.  An error of [getShellEnv] ([SHELL] unset, or the
    login shell failing) is thrown on by [detectRestic].  Once the
    environment is resolved, [detectRestic] never throws: it returns
    [null] when the [which] child is rejected or prints only white space,
    and the trimmed output otherwise. *)
Theorem detectRestic_outcomes (os : exec_call → exec_outcome) (process_env : jsenv) :
  (∀ e calls,
      run os (getShellEnv process_env) = (Abrupt e, calls) →
      run os (detectRestic process_env) = (Abrupt e, calls))
  ∧ (∀ env calls,
      run os (getShellEnv process_env) = (Normal env, calls) →
      (∀ e, os (which_restic env) = Rejected e →
            run os (detectRestic process_env)
            = (Normal None, calls ++ [which_restic env]))
      ∧ (∀ stdout stderr,
            os (which_restic env) = Resolved stdout stderr →
            trim stdout = [] →
            run os (detectRestic process_env)
            = (Normal None, calls ++ [which_restic env]))
      ∧ (∀ stdout stderr,
            os (which_restic env) = Resolved stdout stderr →
            trim stdout ≠ [] →
            run os (detectRestic process_env)
            = (Normal (Some (trim stdout)), calls ++ [which_restic env]))).
Proof.
  unfold detectRestic. split.
  - intros e calls Hfail. by rewrite run_bind, Hfail.
  - intros env calls Hok. rewrite run_bind, Hok, run_try_catch, run_bind, run_execFile.
    fold (which_restic env). repeat split.
    + intros e ->. done.
    + intros stdout stderr -> Hempty. simpl. by rewrite Hempty.
    + intros stdout stderr -> Hfound. simpl.
      by destruct (trim stdout).
Qed.

Lemma detectRestic_outcomes_witness :
  run os_shell_fails (detectRestic sample_env)
  = (Abrupt (ChildProcessError (Some 1) (str "zsh: permission denied")),
     [ExecCall (str "/bin/zsh") [str "-l"; str "-c"; str "env"] sample_env])
  ∧ run os_without_restic (detectRestic sample_env)
  = (Normal None,
     [ExecCall (str "/bin/zsh") [str "-l"; str "-c"; str "env"] sample_env;
      which_restic (parse_env (str "PATH=/usr/bin" ++ [LF] ++ str "HOME=/Users/me" ++ [LF]))]).
Proof.
  split.
  - apply (proj1 (detectRestic_outcomes os_shell_fails sample_env)).
    vm_compute. reflexivity.
  - refine (proj1 (proj2 (detectRestic_outcomes os_without_restic sample_env)
                     (parse_env (str "PATH=/usr/bin" ++ [LF] ++ str "HOME=/Users/me" ++ [LF]))
                     [ExecCall (str "/bin/zsh") [str "-l"; str "-c"; str "env"] sample_env]
                     _)
              (ChildProcessError (Some 1) []) _).
    + vm_compute. reflexivity.
    + vm_compute. reflexivity.
Defined.

(** ** The login-shell environment *)

(** C6.  What the loop of [getShellEnv] records: the value stops at the
    second ['='] of a line; a line without ['='] records its text as a
    key with the value [undefined], also over an earlier value; an empty
    value is recorded; a line with an empty key is skipped. *)
Theorem parse_env_divergence :
  parse_env (str "A=b=c") = {[ str "A" := Str (str "b") ]}
  ∧ parse_env (str "FOO") = {[ str "FOO" := Undefined ]}
  ∧ parse_env (str "A=1" ++ [LF] ++ str "A") = {[ str "A" := Undefined ]}
  ∧ parse_env (str "EMPTY=") = {[ str "EMPTY" := Str [] ]}
  ∧ parse_env (str "=x" ++ [LF]) = ∅
  ∧ (run os_shell_prints (getShellEnv sample_env)).1
    = Normal (<[ str "FOO" := Undefined ]> {[ str "A" := Str (str "b") ]}).
Proof. repeat split; by vm_compute. Qed.

(** * Further properties *)

Section StringFacts.

Lemma split_no_sep sep s : sep ∉ s → split sep s = [s].
Proof.
  induction s as [|c r IH]; simpl; [done|].
  intros Hnot. apply not_elem_of_cons in Hnot as [Hc Hr].
  destruct (N.eqb_spec c sep) as [->|_]; [done|]. by rewrite IH.
Qed.

Lemma split_app_sep sep a b :
  sep ∉ a → split sep (a ++ sep :: b) = a :: split sep b.
Proof.
  induction a as [|c r IH]; simpl.
  - intros _. by rewrite N.eqb_refl.
  - intros Hnot. apply not_elem_of_cons in Hnot as [Hc Hr].
    destruct (N.eqb_spec c sep) as [->|_]; [done|]. by rewrite IH.
Qed.

Lemma split_pieces sep s piece : piece ∈ split sep s → sep ∉ piece.
Proof.
  revert piece. induction s as [|c r IH]; simpl; intros piece.
  - intros ->%list_elem_of_singleton. apply not_elem_of_nil.
  - destruct (N.eqb_spec c sep) as [->|Hne].
    + intros [->|Hin]%elem_of_cons; [apply not_elem_of_nil|by apply IH].
    + destruct (split sep r) as [|p ps] eqn:Hsplit.
      * intros ->%list_elem_of_singleton.
        apply not_elem_of_cons. split; [done|apply not_elem_of_nil].
      * intros [->|Hin]%elem_of_cons.
        -- apply not_elem_of_cons. split; [done|]. apply IH. by left.
        -- apply IH. by right.
Qed.

Lemma split_subset sep s piece c : piece ∈ split sep s → c ∈ piece → c ∈ s.
Proof.
  revert piece. induction s as [|c' r IH]; simpl; intros piece.
  - intros ->%list_elem_of_singleton Hc. done.
  - destruct (N.eqb_spec c' sep) as [->|Hne].
    + intros [->|Hin]%elem_of_cons Hc; [by apply elem_of_nil in Hc|].
      right. by eapply IH.
    + destruct (split sep r) as [|p ps] eqn:Hsplit.
      * intros ->%list_elem_of_singleton Hc. apply list_elem_of_singleton in Hc as ->. by left.
      * intros [->|Hin]%elem_of_cons Hc.
        -- apply elem_of_cons in Hc as [->|Hc]; [by left|].
           right. eapply IH; [by left|done].
        -- right. eapply IH; [by right|done].
Qed.

Lemma split_length sep s :
  length (split sep s) = S (length (List.filter (N.eqb sep) s)).
Proof.
  induction s as [|c r IH]; simpl; [done|].
  rewrite (N.eqb_sym sep c).
  destruct (c =? sep)%N; simpl; [by rewrite IH|].
  destruct (split sep r); simpl in *; lia.
Qed.

Lemma trimStart_suffix s : ∃ ws, s = ws ++ trimStart s ∧ Forall (fun c => is_js_space c = true) ws.
Proof.
  induction s as [|c r (ws & Hr & Hws)]; simpl.
  - by exists [].
  - destruct (is_js_space c) eqn:Hc.
    + exists (c :: ws). split; [simpl; by rewrite <- Hr|by constructor].
    + by exists [].
Qed.

Lemma trimStart_head s c r : trimStart s = c :: r → is_js_space c = false.
Proof.
  induction s as [|c' r' IH]; simpl; [done|].
  destruct (is_js_space c') eqn:Hc; [done|]. by intros [= <- <-].
Qed.

Lemma trimStart_spaces ws s :
  Forall (fun c => is_js_space c = true) ws → trimStart (ws ++ s) = trimStart s.
Proof. induction 1 as [|c ws Hc _ IH]; simpl; [done|]. by rewrite Hc. Qed.

Lemma trimStart_all_spaces ws :
  Forall (fun c => is_js_space c = true) ws → trimStart ws = [].
Proof. intros H. rewrite <- (app_nil_r ws). by rewrite trimStart_spaces. Qed.

Lemma trimStart_idem s : trimStart (trimStart s) = trimStart s.
Proof.
  destruct (trimStart s) as [|c r] eqn:Hs; [done|].
  apply trimStart_head in Hs. simpl. by rewrite Hs.
Qed.

Lemma trimStart_app_nonspace s t c :
  is_js_space c = false → trimStart (s ++ c :: t) = trimStart s ++ c :: t.
Proof.
  intros Hc. induction s as [|c' r IH]; simpl; [by rewrite Hc|].
  by destruct (is_js_space c').
Qed.

Lemma trimEnd_spaces s ws :
  Forall (fun c => is_js_space c = true) ws → trimEnd (s ++ ws) = trimEnd s.
Proof.
  intros Hws. unfold trimEnd. rewrite rev_app_distr, trimStart_spaces; [done|].
  apply Forall_forall. intros c Hc%list_elem_of_In%in_rev%list_elem_of_In.
  by eapply Forall_forall in Hws.
Qed.

Lemma trimEnd_last s c : is_js_space c = false → trimEnd (s ++ [c]) = s ++ [c].
Proof.
  intros Hc. unfold trimEnd. rewrite rev_app_distr. simpl. rewrite Hc.
  simpl. by rewrite rev_involutive.
Qed.

(** [trim] leaves the empty string or a string that begins and ends with
    a character that is not white space. *)
Lemma trim_shape s :
  trim s = []
  ∨ ∃ c mid d, is_js_space c = false ∧ is_js_space d = false
      ∧ (trim s = [c] ∧ c = d ∨ trim s = c :: mid ++ [d]).
Proof.
  unfold trim, trimEnd.
  destruct (trimStart (rev (trimStart s))) as [|d r] eqn:Hend; [by left|].
  right. pose proof (trimStart_head _ _ _ Hend) as Hd.
  destruct (trimStart_suffix (rev (trimStart s))) as (ws & Hrev & Hws).
  rewrite Hend in Hrev.
  assert (trimStart s = rev r ++ d :: rev ws) as Hs.
  { rewrite <- (rev_involutive (trimStart s)), Hrev, rev_app_distr. simpl.
    by rewrite <- app_assoc. }
  simpl. destruct (rev r) as [|c mid] eqn:Hr.
  - exists d, [], d. repeat split; try done. by left.
  - exists c, mid, d. split; [|split; [done|by right]].
    eapply trimStart_head. rewrite Hs. reflexivity.
Qed.

Lemma trim_subset s c : c ∈ trim s → c ∈ s.
Proof.
  unfold trim, trimEnd. intros Hc%list_elem_of_In%in_rev%list_elem_of_In.
  destruct (trimStart_suffix (rev (trimStart s))) as (ws & Hrev & _).
  assert (c ∈ rev (trimStart s)) as Hc'.
  { rewrite Hrev. apply elem_of_app. by right. }
  apply list_elem_of_In, in_rev, list_elem_of_In in Hc'.
  destruct (trimStart_suffix s) as (ws' & Hs & _).
  rewrite Hs. apply elem_of_app. by right.
Qed.

Lemma trim_spaces_around ws1 s ws2 :
  Forall (fun c => is_js_space c = true) ws1 →
  Forall (fun c => is_js_space c = true) ws2 →
  trim (ws1 ++ s ++ ws2) = trim s.
Proof.
  intros H1 H2. unfold trim. rewrite trimStart_spaces by done.
  destruct (trimStart s) as [|c r] eqn:Hs.
  - destruct (trimStart_suffix s) as (ws & Hws & Hall). rewrite Hs, app_nil_r in Hws.
    subst s. rewrite trimStart_all_spaces; [done|]. by apply Forall_app.
  - pose proof (trimStart_head _ _ _ Hs) as Hc.
    destruct (trimStart_suffix s) as (ws & Hws & Hall). rewrite Hs in Hws.
    rewrite Hws, <- app_assoc. simpl. rewrite trimStart_app_nonspace by done.
    rewrite (trimStart_all_spaces ws) by done. simpl.
    change (c :: r ++ ws2) with ((c :: r) ++ ws2). by rewrite trimEnd_spaces.
Qed.

End StringFacts.

(** ** More on the login-shell environment *)

Lemma run_assert_Ret {A} os (value : option envval) message (k : jsstring → proc A) shell :
  value = Some (Str shell) → shell ≠ [] →
  run os (assert value message ≫= k) = run os (k shell).
Proof. intros -> Hne. by destruct shell. Qed.

(** X1.  When [SHELL] is unset, undefined or empty in the process
    environment, [getShellEnv] throws the error of its assertion and
    starts no child process. *)
Theorem getShellEnv_without_shell (os : exec_call → exec_outcome) (process_env : jsenv) :
  process_env !! str "SHELL" = None
  ∨ process_env !! str "SHELL" = Some Undefined
  ∨ process_env !! str "SHELL" = Some (Str []) →
  run os (getShellEnv process_env)
  = (Abrupt (Error (str "SHELL environment variable is set")), []).
Proof.
  unfold getShellEnv. by intros [-> | [-> | ->]].
Qed.

Lemma getShellEnv_without_shell_witness :
  run os_without_restic (getShellEnv (<[str "SHELL" := Str []]> ∅))
  = (Abrupt (Error (str "SHELL environment variable is set")), []).
Proof.
  apply (getShellEnv_without_shell os_without_restic (<[str "SHELL" := Str []]> ∅)).
  right. right. vm_compute. reflexivity.
Defined.

(** X2.  With [SHELL] set, [getShellEnv] starts exactly one child, the
    shell with [-l -c env] and the process environment as it is; a
    rejected child is thrown on, a resolved one gives the parse of its
    output. *)
Theorem getShellEnv_one_child (os : exec_call → exec_outcome)
    (process_env : jsenv) (shell : jsstring) :
  process_env !! str "SHELL" = Some (Str shell) →
  shell ≠ [] →
  run os (getShellEnv process_env)
  = (match os (ExecCall shell [str "-l"; str "-c"; str "env"] process_env) with
     | Resolved stdout _ => Normal (parse_env stdout)
     | Rejected e => Abrupt e
     end,
     [ExecCall shell [str "-l"; str "-c"; str "env"] process_env]).
Proof.
  intros Hshell Hne. unfold getShellEnv.
  rewrite (run_assert_Ret os _ _ _ shell Hshell Hne).
  rewrite run_bind, run_execFile.
  by destruct (os _) as [stdout stderr|e].
Qed.

Lemma getShellEnv_one_child_witness :
  run os_shell_fails (getShellEnv sample_env)
  = (Abrupt (ChildProcessError (Some 1) (str "zsh: permission denied")),
     [ExecCall (str "/bin/zsh") [str "-l"; str "-c"; str "env"] sample_env]).
Proof.
  apply (getShellEnv_one_child os_shell_fails sample_env (str "/bin/zsh")).
  - vm_compute. reflexivity.
  - discriminate.
Defined.

Lemma record_line_ok env line :
  LF ∉ line →
  (∀ k v, env !! k = Some v → recorded_ok k v) →
  ∀ k v, record_line env line !! k = Some v → recorded_ok k v.
Proof.
  intros Hline Henv k v. unfold record_line, split_limit.
  pose proof (split_pieces EQUALS line) as Hpieces.
  pose proof (split_subset EQUALS line) as Hsub.
  destruct (split EQUALS line) as [|key rest]; simpl; [by apply Henv|].
  destruct key as [|c key]; [by apply Henv|].
  unfold obj_assign, eqb. case_bool_decide as Hproto; [by apply Henv|].
  destruct (decide (k = c :: key)) as [->|Hne].
  - rewrite lookup_insert_eq. intros [= <-].
    assert (c :: key ∈ (c :: key) :: rest) as Hin by (by left).
    split; [done|]. split; [done|]. split; [by apply Hpieces|].
    split; [intros Hlf; apply Hline; by eapply Hsub|].
    destruct rest as [|v rest]; simpl; [done|].
    assert (v ∈ (c :: key) :: v :: rest) as Hv by (right; by left).
    split; [by apply Hpieces|]. intros Hlf. apply Hline. by eapply Hsub.
  - rewrite lookup_insert_ne by done. by apply Henv.
Qed.

Lemma fold_record_line_ok lines env :
  Forall (fun line => LF ∉ line) lines →
  (∀ k v, env !! k = Some v → recorded_ok k v) →
  ∀ k v, fold_left record_line lines env !! k = Some v → recorded_ok k v.
Proof.
  intros Hlines. revert env.
  induction Hlines as [|line lines Hline _ IH]; intros env Henv; simpl; [done|].
  apply IH. by apply record_line_ok.
Qed.

(** X3.  Whatever the shell prints, a recorded name is never empty,
    never [__proto__], and has no equals sign or line feed in it; a
    recorded string value has no equals sign or line feed in it either. *)
Theorem parse_env_entries (stdout key : jsstring) (value : envval) :
  parse_env stdout !! key = Some value →
  key ≠ [] ∧ key ≠ str "__proto__" ∧ (EQUALS ∉ key) ∧ (LF ∉ key)
  ∧ match value with
    | Undefined => True
    | Str v => (EQUALS ∉ v) ∧ (LF ∉ v)
    end.
Proof.
  unfold parse_env. apply fold_record_line_ok.
  - apply Forall_forall. intros line Hin. by apply (split_pieces LF stdout).
  - intros k v. by rewrite lookup_empty.
Qed.

Lemma parse_env_entries_witness :
  parse_env (str "PATH=/usr/bin=x" ++ [LF] ++ str "HOME=/Users/me" ++ [LF]) !! str "PATH"
  = Some (Str (str "/usr/bin"))
  ∧ (EQUALS ∉ str "/usr/bin") ∧ (LF ∉ str "/usr/bin").
Proof.
  assert (parse_env (str "PATH=/usr/bin=x" ++ [LF] ++ str "HOME=/Users/me" ++ [LF])
          !! str "PATH" = Some (Str (str "/usr/bin"))) as Hlookup
    by (vm_compute; reflexivity).
  split; [exact Hlookup|].
  apply (parse_env_entries _ _ _ Hlookup).
Defined.

Lemma record_line_plain env k v :
  plain_variable (k, v) →
  record_line env (k ++ [EQUALS] ++ v) = <[k := Str v]> env.
Proof.
  intros (Hne & Hproto & Hk & _ & Hv & _). simpl in *.
  unfold record_line, split_limit.
  rewrite (split_app_sep EQUALS k v Hk), (split_no_sep EQUALS v Hv). simpl.
  destruct k as [|c k]; [done|].
  unfold obj_assign, eqb. by rewrite bool_decide_eq_false_2.
Qed.

Lemma split_print_env vars :
  Forall plain_variable vars →
  split LF (print_env vars) = List.map (fun kv => kv.1 ++ [EQUALS] ++ kv.2) vars ++ [[]].
Proof.
  induction 1 as [|[k v] vars Hkv _ IH]; [done|].
  destruct Hkv as (_ & _ & _ & Hk & _ & Hv). simpl in Hk, Hv.
  assert (print_env ((k, v) :: vars)
          = (k ++ [EQUALS] ++ v) ++ LF :: print_env vars) as ->.
  { unfold print_env. cbn [flat_map fst snd]. by rewrite <- !app_assoc. }
  rewrite split_app_sep.
  - by rewrite IH.
  - intros [Hin|[Hin%list_elem_of_singleton|Hin]%elem_of_app]%elem_of_app; done.
Qed.

Lemma fold_record_plain vars env :
  Forall plain_variable vars →
  fold_left record_line (List.map (fun kv => kv.1 ++ [EQUALS] ++ kv.2) vars) env
  = fold_left (fun m kv => <[kv.1 := Str kv.2]> m) vars env.
Proof.
  intros Hvars. revert env.
  induction Hvars as [|[k v] vars Hkv _ IH]; intros env; [done|].
  simpl. rewrite <- IH. f_equal. by apply (record_line_plain env k v).
Qed.

(** X4.  Output made of lines [NAME=value] whose names are non-empty,
    not [__proto__], and free of equals signs and line feeds, and whose
    values are free of them too, is read back completely: every variable
    with its value, the later line winning for a repeated name, and
    nothing else. *)
Theorem parse_env_print_env (vars : list (jsstring * jsstring)) :
  Forall plain_variable vars →
  parse_env (print_env vars)
  = fold_left (fun m kv => <[kv.1 := Str kv.2]> m) vars ∅.
Proof.
  intros Hvars. unfold parse_env.
  rewrite split_print_env by done.
  rewrite fold_left_app, fold_record_plain by done. reflexivity.
Qed.

Lemma parse_env_print_env_witness :
  parse_env (print_env [(str "PATH", str "/usr/bin:/bin"); (str "HOME", str "/Users/me");
                        (str "PATH", str "/opt/homebrew/bin")])
  = <[str "PATH" := Str (str "/opt/homebrew/bin")]>
      (<[str "HOME" := Str (str "/Users/me")]>
         (<[str "PATH" := Str (str "/usr/bin:/bin")]> ∅)).
Proof.
  apply (parse_env_print_env
           [(str "PATH", str "/usr/bin:/bin"); (str "HOME", str "/Users/me");
            (str "PATH", str "/opt/homebrew/bin")]).
  apply (bool_decide_unpack _). vm_compute. exact I.
Defined.

(** ** More on locating the binary *)

Lemma run_detectRestic os process_env :
  run os (detectRestic process_env)
  = match run os (getShellEnv process_env) with
    | (Normal env, calls) =>
        (match os (which_restic env) with
         | Resolved stdout _ =>
             Normal (match trim stdout with [] => None | _ :: _ => Some (trim stdout) end)
         | Rejected _ => Normal None
         end, calls ++ [which_restic env])
    | (Abrupt e, calls) => (Abrupt e, calls)
    end.
Proof.
  unfold detectRestic. rewrite run_bind.
  destruct (run os (getShellEnv process_env)) as [[env|e] calls]; [|done].
  rewrite run_try_catch, run_bind, run_execFile. fold (which_restic env).
  by destruct (os (which_restic env)) as [stdout stderr|e].
Qed.

(** X5.  A path returned by [detectRestic] is never empty and has no
    white space at either end. *)
Theorem detectRestic_path_is_trimmed (os : exec_call → exec_outcome)
    (process_env : jsenv) (path : jsstring) (calls : list exec_call) :
  run os (detectRestic process_env) = (Normal (Some path), calls) →
  path ≠ [] ∧ trim path = path
  ∧ (∃ c rest, path = c :: rest ∧ is_js_space c = false)
  ∧ (∃ rest d, path = rest ++ [d] ∧ is_js_space d = false).
Proof.
  rewrite run_detectRestic.
  destruct (run os (getShellEnv process_env)) as [[env|e] calls']; [|done].
  destruct (os (which_restic env)) as [stdout stderr|e]; [|done].
  destruct (trim stdout) as [|c0 r0] eqn:Htrim; [done|].
  intros [= <- _]. split; [done|].
  destruct (trim_shape stdout) as [Hnil|(c & mid & d & Hc & Hd & Hshape)];
    [congruence|].
  rewrite Htrim in Hshape.
  assert (trim (c0 :: r0) = c0 :: r0) as Hidem.
  { destruct Hshape as [[-> <-] | ->].
    - unfold trim. simpl. rewrite Hc. unfold trimEnd. simpl. by rewrite Hc.
    - unfold trim. simpl. rewrite Hc.
      change (c :: mid ++ [d]) with ((c :: mid) ++ [d]).
      by rewrite trimEnd_last. }
  split; [done|]. destruct Hshape as [[-> <-] | ->].
  - split; [by exists c, []|by exists [], c].
  - split; [by exists c, (mid ++ [d])|by exists (c :: mid), d].
Qed.

Lemma detectRestic_path_is_trimmed_witness :
  run os_with_restic (detectRestic sample_env)
  = (Normal (Some (str "/opt/homebrew/bin/restic")),
     [ExecCall (str "/bin/zsh") [str "-l"; str "-c"; str "env"] sample_env;
      which_restic (parse_env (str "PATH=/opt/homebrew/bin" ++ [LF]))])
  ∧ trim (str "/opt/homebrew/bin/restic") = str "/opt/homebrew/bin/restic".
Proof.
  assert (run os_with_restic (detectRestic sample_env)
          = (Normal (Some (str "/opt/homebrew/bin/restic")),
             [ExecCall (str "/bin/zsh") [str "-l"; str "-c"; str "env"] sample_env;
              which_restic (parse_env (str "PATH=/opt/homebrew/bin" ++ [LF]))])) as Hrun
    by (vm_compute; reflexivity).
  split; [exact Hrun|].
  exact (proj1 (proj2 (detectRestic_path_is_trimmed _ _ _ _ Hrun))).
Defined.

(** ** More on the backup run *)

(** X6.  With a repository configured, [resticBackup] makes exactly one
    [execFile] call, of the configured binary with the built arguments
    and environment; a rejected child is thrown on without any parsing,
    and a resolved one gives what [parseResticSummary] makes of its
    output. *)
Theorem resticBackup_outcome (os : exec_call → exec_outcome)
    (process_env : jsenv) (basePath : jsstring) (s : settings) :
  resticRepository s ≠ [] →
  run os (resticBackup process_env basePath s)
  = (match os (ExecCall (resticBinPath s) (resticBackup_args basePath s)
                        (resticBackup_env process_env s)) with
     | Resolved stdout _ => parseResticSummary stdout
     | Rejected e => Abrupt e
     end,
     [ExecCall (resticBinPath s) (resticBackup_args basePath s)
               (resticBackup_env process_env s)]).
Proof.
  intros Hrepo. unfold resticBackup.
  destruct (resticRepository s) as [|c repo]; [done|].
  rewrite run_bind, run_execFile.
  destruct (os _) as [stdout stderr|e]; [|done].
  by destruct (parseResticSummary stdout).
Qed.

Lemma resticBackup_outcome_witness :
  (run (os_restic_prints sample_output)
       (resticBackup sample_env (str "/vault") sample_settings)).1
  = Normal sample_summary
  ∧ (run os_restic_fails (resticBackup sample_env (str "/vault") sample_settings)).1
  = Abrupt (ChildProcessError (Some 1) (str "Fatal: wrong password"))
  ∧ (run (os_restic_prints noise_output)
         (resticBackup sample_env (str "/vault") sample_settings)).1
  = Abrupt (Error (str "No summary found in restic output")).
Proof.
  assert (resticRepository sample_settings ≠ []) as Hrepo by discriminate.
  rewrite !(resticBackup_outcome _ sample_env (str "/vault") sample_settings Hrepo).
  repeat split; vm_compute; reflexivity.
Defined.

Lemma map_trim_tags pieces :
  Forall (fun piece => COMMA ∉ piece) pieces →
  Forall (fun tag => (COMMA ∉ tag) ∧ trim tag = tag) (List.map trim pieces).
Proof.
  induction 1 as [|piece pieces Hpiece _ IH]; simpl; constructor; [|done].
  split; [intros Hin; apply Hpiece; by apply trim_subset|].
  destruct (trim_shape piece) as [->|(c & mid & d & Hc & Hd & [[-> <-] | ->])].
  - done.
  - unfold trim. simpl. rewrite Hc. unfold trimEnd. simpl. by rewrite Hc.
  - unfold trim. simpl. rewrite Hc.
    change (c :: mid ++ [d]) with ((c :: mid) ++ [d]). by rewrite trimEnd_last.
Qed.

(** X7.  With a non-empty tag string, the arguments are the four fixed
    ones followed by one [--tag] pair per piece of the tag string: one
    more pair than the string has commas, and no tag value contains a
    comma or has white space at either end. *)
Theorem resticBackup_args_tag_values (basePath : jsstring) (s : settings) :
  resticTags s ≠ [] →
  ∃ tags,
    resticBackup_args basePath s
    = [str "backup"; basePath; str "--json"; str "--skip-if-unchanged"]
      ++ flat_map (fun tag => [str "--tag"; tag]) tags
    ∧ length tags = S (length (List.filter (N.eqb COMMA) (resticTags s)))
    ∧ Forall (fun tag => (COMMA ∉ tag) ∧ trim tag = tag) tags.
Proof.
  intros Htags. exists (List.map trim (split COMMA (resticTags s))).
  split; [|split].
  - unfold resticBackup_args, eqb. rewrite bool_decide_eq_false_2 by done.
    destruct (List.map trim (split COMMA (resticTags s))) as [|t ts] eqn:Hmap.
    { apply map_eq_nil in Hmap. by destruct (split_nonempty COMMA (resticTags s)). }
    change (0 <? length (t :: ts))%nat with true. cbv iota.
    by rewrite push_tags_flat_map.
  - by rewrite length_map, split_length.
  - apply map_trim_tags, Forall_forall. intros piece Hin.
    by apply (split_pieces COMMA (resticTags s)).
Qed.

Lemma resticBackup_args_tag_values_witness :
  ∃ tags,
    resticBackup_args (str "/vault") sample_settings
    = [str "backup"; str "/vault"; str "--json"; str "--skip-if-unchanged"]
      ++ flat_map (fun tag => [str "--tag"; tag]) tags
    ∧ length tags = 4%nat
    ∧ Forall (fun tag => (COMMA ∉ tag) ∧ trim tag = tag) tags.
Proof.
  apply (resticBackup_args_tag_values (str "/vault") sample_settings).
  discriminate.
Defined.

(** ** More on the summary parser *)

Lemma scan_Normal lines v :
  scan lines = Normal v →
  ∃ before line after,
    lines = before ++ line :: after
    ∧ Forall not_summary before ∧ parses_as_summary line v.
Proof.
  induction lines as [|line lines IH]; [done|].
  destruct (try_line line) as [[w|]|e] eqn:Htry.
  - simpl. rewrite Htry. intros [= <-].
    exists [], line, lines. split; [done|]. split; [constructor|].
    by apply try_line_Some.
  - assert (not_summary line) as Hno.
    { intros w Hw. apply try_line_Some in Hw. congruence. }
    rewrite scan_skip by done. intros (before & l & after & -> & Hb & Hl)%IH.
    exists (line :: before), l, after. split; [done|]. split; [by constructor|done].
  - assert (not_summary line) as Hno.
    { intros w Hw. apply try_line_Some in Hw. congruence. }
    rewrite scan_skip by done. intros (before & l & after & -> & Hb & Hl)%IH.
    exists (line :: before), l, after. split; [done|]. split; [by constructor|done].
Qed.

(** X8.  [parseResticSummary] returns [v] exactly when some scanned line
    parses as the summary record [v] and no line before it parses as a
    summary record. *)
Theorem parseResticSummary_returned_value (stdout : jsstring) (v : json) :
  parseResticSummary stdout = Normal v ↔
  ∃ before line after,
    lines_of stdout = before ++ line :: after
    ∧ Forall not_summary before ∧ parses_as_summary line v.
Proof.
  unfold parseResticSummary. split; [apply scan_Normal|].
  intros (before & line & after & -> & Hbefore & Hline).
  rewrite scan_skip_all by done. by apply scan_found.
Qed.

Lemma parseResticSummary_returned_value_witness :
  ∃ before line after,
    lines_of two_summaries_output = before ++ line :: after
    ∧ Forall not_summary before
    ∧ parses_as_summary line
        (JObject [(str "message_type", JString (str "summary"));
                  (str "snapshot_id", JString (str "first"))]).
Proof.
  apply (proj1 (parseResticSummary_returned_value two_summaries_output _)).
  vm_compute. reflexivity.
Defined.

(** X9.  When [parseResticSummary] throws, the error is the one about
    the missing summary and no scanned line parses as a summary record. *)
Theorem parseResticSummary_error_means_no_summary (stdout : jsstring) (e : js_error) :
  parseResticSummary stdout = Abrupt e →
  e = Error (str "No summary found in restic output")
  ∧ Forall not_summary (lines_of stdout).
Proof.
  unfold parseResticSummary.
  destruct (scan_outcome (lines_of stdout)) as [(l & v & _ & _ & ->)|[Hall ->]];
    [done|].
  by intros [= <-].
Qed.

Lemma parseResticSummary_error_means_no_summary_witness :
  Forall not_summary (lines_of noise_output).
Proof.
  apply (parseResticSummary_error_means_no_summary noise_output
           (Error (str "No summary found in restic output"))).
  vm_compute. reflexivity.
Defined.

(** X10.  White space before and after the whole output, blank lines
    included, does not change the result of [parseResticSummary]. *)
Theorem parseResticSummary_ignores_outer_space (before stdout after : jsstring) :
  Forall (fun c => is_js_space c = true) before →
  Forall (fun c => is_js_space c = true) after →
  parseResticSummary (before ++ stdout ++ after) = parseResticSummary stdout.
Proof.
  intros Hbefore Hafter. unfold parseResticSummary, lines_of.
  by rewrite trim_spaces_around.
Qed.

Lemma parseResticSummary_ignores_outer_space_witness :
  parseResticSummary ([LF; 32] ++ sample_output ++ [13; LF; LF])
  = Normal sample_summary.
Proof.
  rewrite (parseResticSummary_ignores_outer_space [LF; 32] sample_output [13; LF; LF]).
  - vm_compute. reflexivity.
  - repeat constructor.
  - repeat constructor.
Defined.

(** ** More on overlapping runs *)

Section RuntimeFacts.
Variable launch : exec_call → option js_error.
Variable process_env : jsenv.
Variable basePath : jsstring.
Variable s : settings.

Local Open Scope nat_scope.

Lemma resticBackup_shape :
  resticBackup process_env basePath s = Throw not_configured
  ∨ ∃ c k, resticBackup process_env basePath s = Await c k
           ∧ ∀ o, k o = lift (backup_result o).
Proof.
  unfold resticBackup. destruct (resticRepository s); [by left|].
  right. eexists _, _. split; [reflexivity|]. by intros [stdout stderr|e].
Qed.

Lemma filter_other_pids p (runs : list suspended) :
  p ∉ List.map pid runs →
  List.filter (fun r => negb (pid r =? p)) runs = runs.
Proof.
  induction runs as [|x runs IH]; simpl; [done|].
  intros [Hx Hruns]%not_elem_of_cons.
  destruct (Nat.eqb_spec (pid x) p) as [Heq|_]; simpl; [congruence|].
  by rewrite IH.
Qed.

Lemma filter_pids_NoDup p (runs : list suspended) :
  NoDup (List.map pid runs) →
  NoDup (List.map pid (List.filter (fun r => negb (pid r =? p)) runs)).
Proof.
  induction runs as [|x runs IH]; simpl; [done|].
  intros [Hx Hnodup]%NoDup_cons.
  destruct (negb (pid x =? p)); simpl; [|by apply IH].
  apply NoDup_cons. split; [|by apply IH].
  intros (y & Hy & Hin)%list_elem_of_fmap. apply Hx.
  apply list_elem_of_fmap. exists y. split; [done|].
  apply list_elem_of_In, filter_In in Hin as [Hin _]. by apply list_elem_of_In.
Qed.

Lemma filter_pids_elem p (runs : list suspended) x :
  x ∈ List.filter (fun r => negb (pid r =? p)) runs ↔ x ∈ runs ∧ pid x ≠ p.
Proof.
  rewrite !list_elem_of_In, filter_In, negb_true_iff, Nat.eqb_neq. done.
Qed.

Lemma take_spec p runs :
  NoDup (List.map pid runs) →
  match take p runs with
  | Some (r, others) =>
      r ∈ runs ∧ pid r = p ∧ length runs = S (length others)
      ∧ others = List.filter (fun r => negb (pid r =? p)) runs
  | None => p ∉ List.map pid runs
  end.
Proof.
  unfold take. induction runs as [|r runs IH]; simpl; intros Hnodup.
  { apply not_elem_of_nil. }
  apply NoDup_cons in Hnodup as [Hr Hnodup]. specialize (IH Hnodup).
  destruct (Nat.eqb_spec (pid r) p) as [Heq|Hne]; simpl.
  - rewrite filter_other_pids by congruence.
    split; [by left|]. done.
  - destruct (List.find (fun r0 => pid r0 =? p) runs) as [r0|].
    + destruct IH as (Hin & Hp & Hlen & _).
      split; [by right|]. split; [done|]. split; [|done].
      simpl. by rewrite Hlen.
    + apply not_elem_of_cons. split; [congruence|done].
Qed.

Lemma advance_lift st (c : completion json) :
  advance launch st (lift c) = State (in_flight st) (next_pid st) (settled st ++ [c]).
Proof. by destruct c. Qed.

Lemma step_well_formed st ev :
  well_formed st → well_formed (step launch process_env basePath s st ev).
Proof.
  intros [Hnodup Hall]. destruct ev as [|p o]; simpl.
  - destruct resticBackup_shape as [->|(c & k & -> & Hk)]; simpl; [done|].
    destruct (launch c) as [e|]; [by rewrite Hk, advance_lift|].
    split.
    + simpl. rewrite map_app. simpl. apply NoDup_app. split; [done|]. split.
      * intros x Hx ->%list_elem_of_singleton.
        apply list_elem_of_fmap in Hx as (r & Hr & Hin).
        eapply Forall_forall in Hall; [|done]. lia.
      * apply NoDup_singleton.
    + apply Forall_app. split.
      * eapply Forall_impl; [done|]. intros r [Hlt Hres]. split; [simpl; lia|done].
      * constructor; [|constructor]. split; [simpl; lia|done].
  - pose proof (take_spec p (in_flight st) Hnodup) as Htake.
    destruct (take p (in_flight st)) as [[r others]|]; [|done].
    destruct Htake as (Hin & Hp & Hlen & ->).
    eapply Forall_forall in Hall as Hr; [|exact Hin]. destruct Hr as [_ Hres].
    rewrite Hres, advance_lift. split; simpl; [by apply filter_pids_NoDup|].
    apply Forall_forall. intros x [Hx _]%filter_pids_elem.
    by eapply Forall_forall in Hall.
Qed.

Lemma steps_snoc evs ev st :
  steps launch process_env basePath s (evs ++ [ev]) st
  = step launch process_env basePath s (steps launch process_env basePath s evs st) ev.
Proof. unfold steps. by rewrite fold_left_app. Qed.

Lemma steps_well_formed evs :
  well_formed (steps launch process_env basePath s evs initial).
Proof.
  induction evs as [|ev evs IH] using rev_ind.
  - split; simpl; constructor.
  - rewrite steps_snoc. by apply step_well_formed.
Qed.

End RuntimeFacts.

(** X12.  When the child of a run in flight exits, that run settles next,
    with the parsed summary or the parser's error if the child resolved
    and with the child's error if it was rejected; the run leaves the
    runs in flight and all others stay. *)
Theorem child_exit_settles_its_run
    (launch : exec_call → option js_error)
    (process_env : jsenv) (basePath : jsstring) (s : settings)
    (evs : list event) (r : suspended) (o : exec_outcome) :
  r ∈ in_flight (steps launch process_env basePath s evs initial) →
  settled (steps launch process_env basePath s (evs ++ [ChildExit (pid r) o]) initial)
  = settled (steps launch process_env basePath s evs initial)
    ++ [match o with
        | Resolved stdout _ => parseResticSummary stdout
        | Rejected e => Abrupt e
        end]
  ∧ (∀ x, x ∈ in_flight (steps launch process_env basePath s
                            (evs ++ [ChildExit (pid r) o]) initial)
          ↔ x ∈ in_flight (steps launch process_env basePath s evs initial)
            ∧ pid x ≠ pid r).
Proof.
  intros Hin. rewrite steps_snoc.
  destruct (steps_well_formed launch process_env basePath s evs) as [Hnodup Hall].
  simpl. pose proof (take_spec (pid r) _ Hnodup) as Htake.
  destruct (take (pid r) (in_flight (steps launch process_env basePath s evs initial)))
    as [[r' others]|].
  - destruct Htake as (Hin' & Hp & Hlen & ->).
    eapply Forall_forall in Hall as Hr; [|exact Hin']. destruct Hr as [_ Hres].
    rewrite Hres, advance_lift. simpl. split; [done|].
    intros x. apply filter_pids_elem.
  - exfalso. apply Htake. apply list_elem_of_fmap. by exists r.
Qed.

(** ** Saving settings *)

Section SaveFacts.
Context {V : Type}.
Implicit Types settings : gmap jsstring V.

Lemma saveSettings_lookup settings key :
  (saveSettings settings).1 !! key
  = (if bool_decide ((key ∈ LOCAL_SETTINGS) ∧ key ≠ PROTO) then settings !! key else None)
  ∧ (saveSettings settings).2 !! key
  = (if bool_decide ((key ∉ LOCAL_SETTINGS) ∧ key ≠ PROTO) then settings !! key else None).
Proof.
  unfold saveSettings.
  apply (map_fold_weak_ind
    (fun (r : gmap jsstring V * gmap jsstring V) m =>
       r.1 !! key = (if bool_decide ((key ∈ LOCAL_SETTINGS) ∧ key ≠ PROTO) then m !! key else None)
       ∧ r.2 !! key = (if bool_decide ((key ∉ LOCAL_SETTINGS) ∧ key ≠ PROTO) then m !! key else None))).
  { simpl. rewrite !lookup_empty. by repeat case_bool_decide. }
  intros i x m [loc dat] Hi [Hloc Hdat]. simpl in *.
  unfold set_own, eqb.
  destruct (decide (key = i)) as [->|Hne].
  - rewrite lookup_insert_eq.
    repeat case_bool_decide; simpl; rewrite ?lookup_insert_eq, ?Hloc, ?Hdat, ?Hi;
      try done; intuition congruence.
  - rewrite lookup_insert_ne by done.
    repeat case_bool_decide; simpl; rewrite ?lookup_insert_ne by done; done.
Qed.

End SaveFacts.

(** X13.  [saveSettings] splits the settings into [localSettings] and
    [dataSettings] without loss or overlap: the two objects share no
    name and together are the settings (which have no own property
    [__proto__]). *)
Theorem saveSettings_loses_nothing {V : Type} (settings : gmap jsstring V) :
  settings !! PROTO = None →
  (saveSettings settings).1 ∪ (saveSettings settings).2 = settings
  ∧ (saveSettings settings).1 ##ₘ (saveSettings settings).2.
Proof.
  intros Hproto. split.
  - apply map_eq. intros key.
    destruct (saveSettings_lookup settings key) as [Hloc Hdat].
    rewrite lookup_union, Hloc, Hdat.
    destruct (decide (key = PROTO)) as [->|Hne].
    + rewrite Hproto. by repeat case_bool_decide.
    + repeat case_bool_decide; destruct (settings !! key); intuition congruence.
  - apply map_disjoint_spec. intros key x y Hx Hy.
    destruct (saveSettings_lookup settings key) as [Hloc Hdat].
    rewrite Hx in Hloc. rewrite Hy in Hdat.
    repeat case_bool_decide; intuition congruence.
Qed.

Lemma saveSettings_loses_nothing_witness :
  (saveSettings default_object).1 ∪ (saveSettings default_object).2 = default_object.
Proof.
  assert (default_object !! PROTO = None) as Hproto by (vm_compute; reflexivity).
  exact (proj1 (saveSettings_loses_nothing default_object Hproto)).
Defined.

(** X14.  A setting named in [LOCAL_SETTINGS] (the enabling flag, the
    binary path, the repository and the two password settings) is saved
    with its value in [localSettings] and never appears in
    [dataSettings]. *)
Theorem saveSettings_keeps_local_settings_local {V : Type}
    (settings : gmap jsstring V) (key : jsstring) :
  key ∈ LOCAL_SETTINGS →
  (saveSettings settings).1 !! key = settings !! key
  ∧ (saveSettings settings).2 !! key = None.
Proof.
  intros Hlocal. destruct (saveSettings_lookup settings key) as [-> ->].
  assert (key ≠ PROTO) as Hne.
  { intros ->. revert Hlocal. vm_compute. set_solver. }
  rewrite bool_decide_eq_true_2 by done.
  rewrite bool_decide_eq_false_2 by intuition congruence. done.
Qed.

Lemma saveSettings_keeps_other_settings_in_data {V : Type}
    (settings : gmap jsstring V) (key : jsstring) :
  key ∉ LOCAL_SETTINGS → key ≠ PROTO →
  (saveSettings settings).2 !! key = settings !! key
  ∧ (saveSettings settings).1 !! key = None.
Proof.
  intros Hlocal Hne. destruct (saveSettings_lookup settings key) as [-> ->].
  rewrite bool_decide_eq_true_2 by done.
  rewrite bool_decide_eq_false_2 by intuition congruence. done.
Qed.

Lemma saveSettings_insert (key : jsstring) (value : json) (settings : object) :
  key ≠ PROTO →
  saveSettings (<[key := value]> settings)
  = (if bool_decide (key ∈ LOCAL_SETTINGS)
     then (<[key := value]> (saveSettings settings).1, (saveSettings settings).2)
     else ((saveSettings settings).1, <[key := value]> (saveSettings settings).2)).
Proof.
  intros Hne.
  rewrite (surjective_pairing (saveSettings (<[key:=value]> settings))).
  case_bool_decide as Hlocal; f_equal; apply map_eq; intros k;
    destruct (saveSettings_lookup (<[key:=value]> settings) k) as [Hloc Hdat];
    destruct (saveSettings_lookup settings k) as [Hloc' Hdat'];
    rewrite ?Hloc, ?Hdat;
    (destruct (decide (k = key)) as [->|Hk];
     [rewrite ?lookup_insert_eq | rewrite ?lookup_insert_ne by done]);
    rewrite ?Hloc', ?Hdat';
    repeat case_bool_decide; try done; intuition congruence.
Qed.

(** X15.  A change made through the toggle or through a text field other
    than Backup Interval sets that setting to the value given and saves:
    the new value enters the saved object its name belongs to, the data
    object for the tags and the local object for the others, and the
    other saved object is what a save before the change would have
    produced. *)
Theorem onChange_saves_where_the_key_belongs (c : change) (settings : object) :
  (onChange c settings).1 !! change_key c = Some (change_value c)
  ∧ (onChange c settings).2
    = match c with
      | SetResticTags value =>
          ((saveSettings settings).1,
           <[str "resticTags" := JString value]> (saveSettings settings).2)
      | _ =>
          (<[change_key c := change_value c]> (saveSettings settings).1,
           (saveSettings settings).2)
      end.
Proof.
  unfold onChange. cbn [fst snd]. split; [by rewrite lookup_insert_eq|].
  rewrite saveSettings_insert by (by destruct c).
  destruct c; reflexivity.
Qed.

(** ** Loading settings *)

(** The value an entry list gives a name: that of its last entry. *)
Lemma assign_entries_lookup target entries key :
  key ≠ PROTO →
  assign_entries target entries !! key
  = match obj_get (rev entries) key with
    | Some v => Some v
    | None => target !! key
    end.
Proof.
  intros Hne. unfold assign_entries. revert target.
  induction entries as [|[k v] entries IH] using rev_ind; intros target; [done|].
  rewrite fold_left_app, rev_app_distr. simpl.
  unfold set_own at 1. unfold eqb.
  destruct (decide (k = key)) as [->|Hk].
  - rewrite (bool_decide_eq_true_2 (key = key)) by done.
    rewrite (bool_decide_eq_false_2 (key = PROTO)) by done.
    by rewrite lookup_insert_eq.
  - rewrite (bool_decide_eq_false_2 (k = key)) by done.
    case_bool_decide; [apply IH|]. rewrite lookup_insert_ne by done. apply IH.
Qed.

Lemma assign_entries_keeps target entries key :
  is_Some (target !! key) → is_Some (assign_entries target entries !! key).
Proof.
  unfold assign_entries. revert target.
  induction entries as [|[k v] entries IH]; intros target Hkey; [done|].
  simpl. apply IH. unfold set_own. destruct (eqb k PROTO); [done|].
  destruct (decide (k = key)) as [->|Hk].
  - rewrite lookup_insert_eq. by eexists.
  - by rewrite lookup_insert_ne.
Qed.

Lemma run_lift {A} os (c : completion A) : run os (lift c) = (c, []).
Proof. by destruct c. Qed.

Lemma run_loadSettings os process_env h current localJSON :
  run os (loadSettings process_env h current localJSON)
  = match get_resticBinPath (read_local localJSON) with
    | Abrupt e => (Abrupt e, [])
    | Normal binPath =>
        if truthy binPath then
          (Normal (Loaded (assign_entries
                             (assign_entries default_object
                                (own_entries (read_local localJSON)))
                             (own_entries (data_on_entry h)))
                          None), [])
        else
          match run os (detectRestic process_env) with
          | (Abrupt e, calls) => (Abrupt e, calls)
          | (Normal detected, calls) =>
              (match set_resticBinPath (read_local localJSON)
                       (match detected with
                        | Some path => JString path
                        | None => JNull
                        end) with
               | Abrupt e => Abrupt e
               | Normal entries =>
                   Normal (Loaded
                     (assign_entries (assign_entries default_object entries)
                        (own_entries (data_after_save h (saveSettings current).2)))
                     (Some (saveSettings current)))
               end, calls)
          end
    end.
Proof.
  unfold loadSettings. rewrite run_bind, run_lift.
  destruct (get_resticBinPath (read_local localJSON)) as [binPath|e]; [|done].
  destruct (truthy binPath); [done|].
  rewrite run_bind.
  destruct (run os (detectRestic process_env)) as [[detected|e] calls]; [|done].
  rewrite run_bind, run_lift.
  destruct (set_resticBinPath _ _) as [entries|e]; [|by rewrite app_nil_r].
  simpl. by rewrite app_nil_r.
Qed.

Section ObjectFacts.
Implicit Types o : list (jsstring * json).

Lemma obj_get_Some o k v : obj_get o k = Some v → (k, v) ∈ o.
Proof.
  induction o as [|[k' v'] o IH]; simpl; [done|]. unfold eqb.
  case_bool_decide as Hk; [intros [= ->]; subst; by left|].
  intros Hin%IH. by right.
Qed.

Lemma obj_get_None o k : obj_get o k = None ↔ k ∉ o.*1.
Proof.
  induction o as [|[k' v'] o IH]; simpl.
  - split; [intros _; apply not_elem_of_nil|done].
  - unfold eqb. rewrite not_elem_of_cons. case_bool_decide as Hk.
    + split; [done|]. intros [Hne _]. by subst.
    + rewrite IH. intuition congruence.
Qed.

Lemma obj_get_NoDup o k v : NoDup o.*1 → (k, v) ∈ o → obj_get o k = Some v.
Proof.
  induction o as [|[k' v'] o IH]; simpl.
  - intros _ Hin. by apply elem_of_nil in Hin.
  - intros [Hk' Hnodup]%NoDup_cons [[= -> ->]|Hin]%elem_of_cons; unfold eqb.
    + by rewrite bool_decide_eq_true_2.
    + rewrite bool_decide_eq_false_2; [by apply IH|].
      intros ->. apply Hk'. apply list_elem_of_fmap. by exists (k, v).
Qed.

Lemma obj_get_rev o k : NoDup o.*1 → obj_get (rev o) k = obj_get o k.
Proof.
  intros Hnodup.
  assert (NoDup (rev o).*1) as Hrev.
  { assert ((rev o).*1 = rev o.*1) as ->.
    { clear. induction o as [|kv o IH]; simpl; [done|].
      by rewrite fmap_app, IH. }
    by apply NoDup_ListNoDup, List.NoDup_rev, NoDup_ListNoDup. }
  destruct (obj_get o k) as [v|] eqn:Hget.
  - apply obj_get_NoDup; [done|].
    apply list_elem_of_In, in_rev, list_elem_of_In. rewrite rev_involutive.
    by apply obj_get_Some.
  - apply obj_get_None. apply obj_get_None in Hget.
    intros (kv & Hk & Hin)%list_elem_of_fmap. apply Hget.
    apply list_elem_of_fmap. exists kv. split; [done|].
    by apply list_elem_of_In, in_rev, list_elem_of_In.
Qed.

Lemma obj_get_map_to_list (m : object) k :
  obj_get (rev (map_to_list m)) k = m !! k.
Proof.
  rewrite obj_get_rev by apply NoDup_fst_map_to_list.
  destruct (m !! k) as [v|] eqn:Hm.
  - apply obj_get_NoDup; [apply NoDup_fst_map_to_list|].
    by apply elem_of_map_to_list.
  - apply obj_get_None. intros (kv & -> & Hin)%list_elem_of_fmap.
    destruct kv as [k' v']. apply elem_of_map_to_list in Hin. simpl in Hm. congruence.
Qed.

Lemma obj_get_set o k v k' :
  obj_get (obj_set o k v) k' = if bool_decide (k = k') then Some v else obj_get o k'.
Proof.
  induction o as [|[k0 v0] o IH]; simpl; unfold eqb.
  - by repeat case_bool_decide.
  - destruct (decide (k0 = k)) as [->|Hk0].
    + rewrite (bool_decide_eq_true_2 (k = k)) by done. simpl. unfold eqb.
      by repeat case_bool_decide.
    + rewrite (bool_decide_eq_false_2 (k0 = k)) by done. simpl. unfold eqb.
      rewrite IH. repeat case_bool_decide; try done; congruence.
Qed.

Lemma obj_set_keys o k v : NoDup o.*1 → NoDup (obj_set o k v).*1.
Proof.
  induction o as [|[k0 v0] o IH]; simpl.
  - intros _. apply NoDup_singleton.
  - intros [Hk0 Hnodup]%NoDup_cons. unfold eqb. case_bool_decide as Hk; simpl.
    + subst. by apply NoDup_cons.
    + apply NoDup_cons. split; [|by apply IH].
      intros (kv & Hfst & Hin)%list_elem_of_fmap. destruct kv as [k1 v1]. simpl in Hfst. subst k1.
      assert (obj_get (obj_set o k v) k0 ≠ None) as Hget.
      { apply obj_get_NoDup in Hin; [congruence|by apply IH]. }
      rewrite obj_get_set, bool_decide_eq_false_2 in Hget by done.
      apply Hget, obj_get_None, Hk0.
Qed.

End ObjectFacts.

(** The objects of [JSON.parse] have one member per name. *)
Lemma parse_members_keys fuel s acc v rest :
  NoDup acc.*1 → parse_members fuel s acc = POk v rest →
  ∃ members, v = JObject members ∧ NoDup members.*1.
Proof.
  revert s acc. induction fuel as [|fuel IH]; intros s acc Hacc; [done|].
  simpl. repeat case_match; try done.
  - apply IH. by apply obj_set_keys.
  - intros [= <- <-]. eexists. split; [done|]. by apply obj_set_keys.
Qed.

Lemma parse_elements_array fuel s acc v rest :
  parse_elements fuel s acc = POk v rest → ∃ elements, v = JArray elements.
Proof.
  revert s acc. induction fuel as [|fuel IH]; intros s acc; [done|].
  simpl. repeat case_match; try done; [apply IH|].
  intros [= <- <-]. by eexists.
Qed.

Lemma parse_number_number s v rest :
  parse_number s = POk v rest → ∃ m e, v = JNumber m e.
Proof.
  unfold parse_number. repeat case_match; try done;
    intros [= <- <-]; by eexists _, _.
Qed.

Lemma parse_value_keys fuel s members rest :
  parse_value fuel s = POk (JObject members) rest → NoDup members.*1.
Proof.
  destruct fuel as [|fuel]; [done|]. simpl.
  destruct (skip_ws s) as [|c r]; [done|].
  destruct (c =? 123)%N.
  { destruct (skip_ws r) as [|c1 r1]; [done|].
    destruct (c1 =? 125)%N; [intros [= <- <-]; constructor|].
    intros (ms & [= ->] & Hms)%parse_members_keys; [done|constructor]. }
  destruct (c =? 91)%N.
  { destruct (skip_ws r) as [|c1 r1]; [done|].
    destruct (c1 =? 93)%N; [done|].
    by intros [els [=]]%parse_elements_array. }
  destruct (c =? 34)%N; [by destruct (parse_chars r)|].
  unfold parse_literal.
  repeat case_match; try done.
  by intros (m & e & [=])%parse_number_number.
Qed.

Lemma JSON_parse_keys text members :
  JSON_parse text = Normal (JObject members) → NoDup members.*1.
Proof.
  unfold JSON_parse.
  destruct (parse_value _ text) as [v rest| |] eqn:Hparse; try done.
  destruct (skip_ws rest); [|done]. intros [= ->].
  by eapply parse_value_keys.
Qed.

Lemma read_local_keys localJSON members :
  read_local localJSON = JObject members → NoDup members.*1.
Proof.
  unfold read_local. destruct localJSON as [[|c text]|]; try (intros [= <-]; constructor).
  destruct (JSON_parse (c :: text)) as [v|e] eqn:Hparse; [|intros [= <-]; constructor].
  intros ->. by eapply JSON_parse_keys.
Qed.

(** X16.  When the stored local settings are an object with a truthy
    [resticBinPath], [loadSettings] starts no child process and saves
    nothing, and each setting is taken from the data file if it has it,
    else from the stored local settings, else from the defaults. *)
Theorem loadSettings_with_stored_path (os : exec_call → exec_outcome)
    (process_env : jsenv) (h : host) (current : object)
    (localJSON : option jsstring) (members : list (jsstring * json)) :
  read_local localJSON = JObject members →
  truthy (obj_get members (str "resticBinPath")) = true →
  ∃ loaded_settings,
    run os (loadSettings process_env h current localJSON)
    = (Normal (Loaded loaded_settings None), [])
    ∧ ∀ key, key ≠ PROTO →
        loaded_settings !! key = merged members (own_entries (data_on_entry h)) key.
Proof.
  intros Hlocal Hpath. rewrite run_loadSettings, Hlocal. simpl. rewrite Hpath.
  eexists. split; [reflexivity|]. intros key Hne.
  unfold merged. by rewrite !assign_entries_lookup.
Qed.

(** X17.  When the stored local settings are an object without a truthy
    [resticBinPath] and detection completes, [loadSettings] saves the
    settings held before loading, and reads the data back after that
    save: the loaded [resticBinPath] is the detected path or [null], and
    every other non-local setting held before loading keeps its value,
    whatever the data file held. *)
Theorem loadSettings_detects_and_overwrites (os : exec_call → exec_outcome)
    (process_env : jsenv) (data : json) (current : object)
    (localJSON : option jsstring) (members : list (jsstring * json))
    (detected : option jsstring) (calls : list exec_call) :
  read_local localJSON = JObject members →
  truthy (obj_get members (str "resticBinPath")) = false →
  run os (detectRestic process_env) = (Normal detected, calls) →
  ∃ loaded_settings,
    run os (loadSettings process_env (reliable_host data) current localJSON)
    = (Normal (Loaded loaded_settings (Some (saveSettings current))), calls)
    ∧ loaded_settings !! str "resticBinPath"
      = Some (match detected with Some path => JString path | None => JNull end)
    ∧ ∀ key value, key ∉ LOCAL_SETTINGS → key ≠ PROTO →
        current !! key = Some value → loaded_settings !! key = Some value.
Proof.
  intros Hlocal Hpath Hdetect.
  rewrite run_loadSettings, Hlocal. simpl. rewrite Hpath, Hdetect.
  eexists. split; [reflexivity|]. split.
  - rewrite assign_entries_lookup by discriminate.
    rewrite obj_get_map_to_list.
    destruct (saveSettings_lookup current (str "resticBinPath")) as [_ ->].
    rewrite bool_decide_eq_false_2 by (intros [Hnot _]; apply Hnot; vm_compute; set_solver).
    rewrite assign_entries_lookup by discriminate.
    rewrite obj_get_rev by (apply obj_set_keys; by eapply read_local_keys).
    rewrite obj_get_set. by rewrite bool_decide_eq_true_2.
  - intros key value Hkey Hne Hcur.
    rewrite assign_entries_lookup by done.
    rewrite obj_get_map_to_list.
    destruct (saveSettings_lookup current key) as [_ ->].
    rewrite bool_decide_eq_true_2 by done. by rewrite Hcur.
Qed.

(** X18.  Stored text that is JSON for [null] makes [loadSettings] throw
    a [TypeError] at once; stored text for a boolean, a number or a
    string makes it throw a [TypeError] after detection has run, unless
    detection threw first. *)
Theorem loadSettings_rejects_stored_primitives (os : exec_call → exec_outcome)
    (process_env : jsenv) (h : host) (current : object) (localJSON : option jsstring) :
  match read_local localJSON with
  | JNull =>
      run os (loadSettings process_env h current localJSON) = (Abrupt TypeError, [])
  | JBool _ | JNumber _ _ | JString _ =>
      run os (loadSettings process_env h current localJSON)
      = match run os (detectRestic process_env) with
        | (Normal _, calls) => (Abrupt TypeError, calls)
        | (Abrupt e, calls) => (Abrupt e, calls)
        end
  | JArray _ | JObject _ => True
  end.
Proof.
  rewrite run_loadSettings.
  destruct (read_local localJSON); simpl; try done;
    by destruct (run os (detectRestic process_env)) as [[d|e] calls].
Qed.

(** X19.  Whenever [loadSettings] completes, the loaded settings define
    every setting the defaults define. *)
Theorem loadSettings_defines_every_default (os : exec_call → exec_outcome)
    (process_env : jsenv) (h : host) (current : object) (localJSON : option jsstring)
    (l : loaded) (calls : list exec_call) (key : jsstring) :
  run os (loadSettings process_env h current localJSON) = (Normal l, calls) →
  is_Some (default_object !! key) →
  is_Some (new_settings l !! key).
Proof.
  rewrite run_loadSettings. intros Hrun Hkey.
  destruct (get_resticBinPath (read_local localJSON)) as [binPath|e]; [|done].
  destruct (truthy binPath).
  - injection Hrun as <- _. simpl. by do 2 apply assign_entries_keeps.
  - destruct (run os (detectRestic process_env)) as [[d|e] calls']; [|done].
    destruct (set_resticBinPath _ _) as [entries|e]; [|done].
    injection Hrun as <- _. simpl. by do 2 apply assign_entries_keeps.
Qed.

(** ** Starting the plugin *)

Lemma run_onload os process_env h current localJSON :
  run os (onload process_env h current localJSON)
  = match run os (loadSettings process_env h current localJSON) with
    | (Abrupt e, calls) => (Abrupt e, calls)
    | (Normal l, calls) =>
        (Normal (Started l
           (match new_settings l !! str "enabled" with
            | Some (JBool false) => [SettingTab]
            | _ =>
                match new_settings l !! str "backupInterval" with
                | Some v => if truthy (Some v) then [SettingTab; Interval v; Command]
                            else [SettingTab; Command]
                | None => [SettingTab; Command]
                end
            end)), calls)
    end.
Proof.
  unfold onload. rewrite run_bind.
  destruct (run os (loadSettings process_env h current localJSON)) as [[l|e] calls];
    [|done].
  destruct (new_settings l !! str "enabled") as [[| [|] | | | |]|];
    destruct (new_settings l !! str "backupInterval") as [v|];
    try destruct (truthy (Some v));
    simpl; by rewrite app_nil_r.
Qed.

(** X20.  When no truthy binary path is stored and [SHELL] is unset or
    empty, [onload] fails with the error of the assertion of
    [getShellEnv]: no child is started and nothing is registered, the
    settings tab included. *)
Theorem onload_fails_without_shell (os : exec_call → exec_outcome)
    (process_env : jsenv) (h : host) (current : object)
    (localJSON : option jsstring) (binPath : option json) :
  get_resticBinPath (read_local localJSON) = Normal binPath →
  truthy binPath = false →
  process_env !! str "SHELL" = None
  ∨ process_env !! str "SHELL" = Some Undefined
  ∨ process_env !! str "SHELL" = Some (Str []) →
  run os (onload process_env h current localJSON)
  = (Abrupt (Error (str "SHELL environment variable is set")), []).
Proof.
  intros Hget Hpath Hshell.
  rewrite run_onload, run_loadSettings, Hget, Hpath, run_detectRestic.
  assert (run os (getShellEnv process_env)
          = (Abrupt (Error (str "SHELL environment variable is set")), [])) as ->.
  { unfold getShellEnv. by destruct Hshell as [-> | [-> | ->]]. }
  done.
Qed.

(** X21.  Whenever [onload] completes, the settings tab is registered
    first; the Backup command is registered exactly when the loaded
    [enabled] is not [false], and a timer exactly when in addition the
    loaded [backupInterval] is truthy, with that value as its period in
    seconds. *)
Theorem onload_registrations (os : exec_call → exec_outcome)
    (process_env : jsenv) (h : host) (current : object) (localJSON : option jsstring)
    (st : started) (calls : list exec_call) :
  run os (onload process_env h current localJSON) = (Normal st, calls) →
  (∃ more, registered st = SettingTab :: more)
  ∧ (Command ∈ registered st
     ↔ new_settings (settings_loaded st) !! str "enabled" ≠ Some (JBool false))
  ∧ (∀ v, Interval v ∈ registered st
          ↔ new_settings (settings_loaded st) !! str "enabled" ≠ Some (JBool false)
            ∧ new_settings (settings_loaded st) !! str "backupInterval" = Some v
            ∧ truthy (Some v) = true).
Proof.
  rewrite run_onload.
  destruct (run os (loadSettings process_env h current localJSON)) as [[l|e] calls'];
    [|done].
  match goal with
  | |- (Normal (Started l ?R), _) = _ → _ => set (regs := R)
  end.
  intros [= <- _]. cbn [registered settings_loaded]. subst regs.
  destruct (new_settings l !! str "enabled") as [[| [|] | | | |]|];
    destruct (new_settings l !! str "backupInterval") as [v|];
    try destruct (truthy (Some v)) eqn:Htruthy;
    (split; [by eexists|]);
    (split; [split; [done || (intros Hin; set_solver) | intros Hen; set_solver]|]);
    intros w;
    (split;
     [ intros Hin; repeat (apply elem_of_cons in Hin as [Hin|Hin]; try discriminate);
       try (by apply elem_of_nil in Hin); injection Hin as <-; by repeat split
     | intros (Hen & Hv & Ht); try done; try discriminate;
       injection Hv as <-; try congruence; set_solver ]).
Qed.

Lemma child_exit_settles_its_run_witness :
  settled (steps launch_unless_empty sample_env (str "/vault") sample_settings
             [Trigger; Trigger; ChildExit 1 (Resolved sample_output [])] initial)
  = [Normal sample_summary].
Proof.
  assert (∃ r, r ∈ in_flight (steps launch_unless_empty sample_env (str "/vault")
                                sample_settings [Trigger; Trigger] initial)
               ∧ pid r = 1%nat)
    as (r & Hin & Hpid).
  { eexists. split; [right; left|reflexivity]. }
  destruct (child_exit_settles_its_run launch_unless_empty sample_env (str "/vault")
              sample_settings
              [Trigger; Trigger] r (Resolved sample_output []) Hin) as [Hsettled _].
  rewrite Hpid in Hsettled. simpl app in Hsettled. rewrite Hsettled.
  vm_compute. reflexivity.
Defined.

Lemma saveSettings_keeps_local_settings_local_witness :
  (saveSettings default_object).1 !! str "resticPasswordCommand" = Some (JString [])
  ∧ (saveSettings default_object).2 !! str "resticPasswordCommand" = None.
Proof.
  apply (saveSettings_keeps_local_settings_local default_object
           (str "resticPasswordCommand")).
  vm_compute. set_solver.
Defined.

Lemma loadSettings_with_stored_path_witness :
  ∃ loaded_settings,
    run os_shell_fails
        (loadSettings sample_env (reliable_host stored_data) default_object
           (Some stored_settings))
    = (Normal (Loaded loaded_settings None), [])
    ∧ ∀ key, key ≠ PROTO →
        loaded_settings !! key
        = merged [(str "enabled", JBool true);
                  (str "resticBinPath", JString (str "/usr/local/bin/restic"));
                  (str "resticRepository", JString (str "/tmp/restic-repo"));
                  (str "resticTags", JString (str "local"))]
                 [(str "resticTags", JString (str "obsidian,notes"));
                  (str "backupInterval", JNumber 0 0)] key.
Proof.
  apply (loadSettings_with_stored_path os_shell_fails sample_env
           (reliable_host stored_data) default_object (Some stored_settings)).
  - vm_compute. reflexivity.
  - vm_compute. reflexivity.
Defined.

Lemma loadSettings_detects_and_overwrites_witness :
  ∃ loaded_settings,
    run os_with_restic
        (loadSettings sample_env (reliable_host stored_data) default_object
           (Some stored_without_path))
    = (Normal (Loaded loaded_settings (Some (saveSettings default_object))),
       [ExecCall (str "/bin/zsh") [str "-l"; str "-c"; str "env"] sample_env;
        which_restic (parse_env (str "PATH=/opt/homebrew/bin" ++ [LF]))])
    ∧ loaded_settings !! str "resticBinPath"
      = Some (JString (str "/opt/homebrew/bin/restic"))
    ∧ loaded_settings !! str "resticTags" = Some (JString []).
Proof.
  destruct (loadSettings_detects_and_overwrites os_with_restic sample_env stored_data
              default_object (Some stored_without_path)
              [(str "enabled", JBool true); (str "resticBinPath", JString []);
               (str "resticRepository", JString (str "/tmp/restic-repo"))]
              (Some (str "/opt/homebrew/bin/restic"))
              [ExecCall (str "/bin/zsh") [str "-l"; str "-c"; str "env"] sample_env;
               which_restic (parse_env (str "PATH=/opt/homebrew/bin" ++ [LF]))])
    as (loaded_settings & Hrun & Hpath & Hdata).
  - vm_compute. reflexivity.
  - vm_compute. reflexivity.
  - vm_compute. reflexivity.
  - exists loaded_settings. split; [exact Hrun|]. split; [exact Hpath|].
    apply Hdata.
    + apply (bool_decide_unpack _). vm_compute. exact I.
    + discriminate.
    + vm_compute. reflexivity.
Defined.

Lemma loadSettings_defines_every_default_witness :
  match run os_with_restic
          (loadSettings sample_env (reliable_host stored_data) default_object
             (Some (text "{'backupInterval':null}"))) with
  | (Normal l, _) => is_Some (new_settings l !! str "resticTags")
  | (Abrupt _, _) => False
  end.
Proof.
  destruct (run os_with_restic
              (loadSettings sample_env (reliable_host stored_data) default_object
                 (Some (text "{'backupInterval':null}"))))
    as [[l|e] calls] eqn:Hrun.
  - apply (loadSettings_defines_every_default _ _ _ _ _ _ _ (str "resticTags") Hrun).
    vm_compute. by eexists.
  - vm_compute in Hrun. discriminate Hrun.
Defined.

Lemma onload_fails_without_shell_witness :
  run os_with_restic (onload ∅ (reliable_host JNull) default_object None)
  = (Abrupt (Error (str "SHELL environment variable is set")), []).
Proof.
  apply (onload_fails_without_shell os_with_restic ∅ (reliable_host JNull)
           default_object None None).
  - reflexivity.
  - reflexivity.
  - left. reflexivity.
Defined.

Lemma onload_registrations_witness :
  match run os_shell_fails
          (onload sample_env (reliable_host stored_data) default_object
             (Some stored_settings)) with
  | (Normal st, _) => Command ∈ registered st
  | (Abrupt _, _) => False
  end.
Proof.
  destruct (run os_shell_fails
              (onload sample_env (reliable_host stored_data) default_object
                 (Some stored_settings)))
    as [[st|e] calls] eqn:Hrun.
  - apply (proj2 (proj1 (proj2 (onload_registrations _ _ _ _ _ _ _ Hrun)))).
    vm_compute in Hrun. injection Hrun as <- _.
    intros Henabled. vm_compute in Henabled. discriminate Henabled.
  - vm_compute in Hrun. discriminate Hrun.
Defined.
